(** * Accounts: the delegated-signer registry

    A shallow embedding of [packages/protocol/contracts/common/Accounts.sol]
    and the properties of its authorization registry.

    The contract keeps two mappings, [accounts] and [authorizedBy].  A
    Solidity mapping is total (an absent key reads as the default value), so
    both are embedded as total functions on addresses.  An entry point is a
    computation in a small transaction monad: it reads and writes the storage,
    may revert, and emits events.  The owner that [initialize] records is
    inherited state which no function of the registry reads; it is left out. *)

From Stdlib Require Import NArith ZArith Bool List String Ascii Lia.
From Stdlib Require Import Strings.Byte Sorting.Permutation.
Import ListNotations.

Local Open Scope N_scope.

(** ** Storage layout *)

(** Addresses are 160-bit words.  The contract only compares them, so the
    width never matters; [address0] is Solidity's [address(0)], the default
    value of an unset slot. *)
Definition address : Type := N.
Definition address0 : address := 0.

Record Signers : Type := mkSigners {
  voting : address;
  validating : address;
  attesting : address
}.

Record Account : Type := mkAccount {
  account_exists : bool;          (* field [exists] of the source *)
  signers : Signers;
  walletAddress : address;
  dataEncryptionKey : list byte;
  metadataURL : string
}.

(** The storage of the contract.  [accounts] and [authorizedBy] are the two
    mappings declared in the source; [guard_entered] is the lock of the
    inherited re-entrancy guard. *)
Record State : Type := mkState {
  accounts : address -> Account;
  authorizedBy : address -> address;
  guard_entered : bool
}.

Definition defaultSigners : Signers := mkSigners address0 address0 address0.
Definition defaultAccount : Account :=
  mkAccount false defaultSigners address0 [] EmptyString.

(** The registry right after deployment: every slot holds its default. *)
Definition genesis : State :=
  mkState (fun _ => defaultAccount) (fun _ => address0) false.

(** The three signing roles, one per field of [Signers]. *)
Inductive Role : Type := Voting | Validating | Attesting.

Definition signerOf (R : Role) (sg : Signers) : address :=
  match R with
  | Voting => voting sg
  | Validating => validating sg
  | Attesting => attesting sg
  end.

Definition slot (st : State) (a : address) (R : Role) : address :=
  signerOf R (signers (accounts st a)).

(** ** Storage writes *)

Definition upd {V : Type} (f : address -> V) (k : address) (v : V) : address -> V :=
  fun x => if x =? k then v else f x.

Definition with_exists (b : bool) (a : Account) : Account :=
  mkAccount b (signers a) (walletAddress a) (dataEncryptionKey a) (metadataURL a).
Definition with_signers (sg : Signers) (a : Account) : Account :=
  mkAccount (account_exists a) sg (walletAddress a) (dataEncryptionKey a) (metadataURL a).
Definition with_walletAddress (w : address) (a : Account) : Account :=
  mkAccount (account_exists a) (signers a) w (dataEncryptionKey a) (metadataURL a).
Definition with_dataEncryptionKey (k : list byte) (a : Account) : Account :=
  mkAccount (account_exists a) (signers a) (walletAddress a) k (metadataURL a).
Definition with_metadataURL (u : string) (a : Account) : Account :=
  mkAccount (account_exists a) (signers a) (walletAddress a) (dataEncryptionKey a) u.

Definition with_signer (R : Role) (x : address) (sg : Signers) : Signers :=
  match R with
  | Voting => mkSigners x (validating sg) (attesting sg)
  | Validating => mkSigners (voting sg) x (attesting sg)
  | Attesting => mkSigners (voting sg) (validating sg) x
  end.

(** [accounts[who].f = ...] *)
Definition set_account (who : address) (f : Account -> Account) (st : State) : State :=
  mkState (upd (accounts st) who (f (accounts st who))) (authorizedBy st) (guard_entered st).

(** [accounts[who].signers.R = x] *)
Definition set_signer (who : address) (R : Role) (x : address) (st : State) : State :=
  set_account who (fun a => with_signers (with_signer R x (signers a)) a) st.

(** [authorizedBy[k] = v] *)
Definition set_authorizedBy (k v : address) (st : State) : State :=
  mkState (accounts st) (upd (authorizedBy st) k v) (guard_entered st).

Definition set_guard (b : bool) (st : State) : State :=
  mkState (accounts st) (authorizedBy st) b.

(** ** Events *)

Inductive Event : Type :=
| AttestationSignerAuthorized (account signer : address)
| VoteSignerAuthorized (account signer : address)
| ValidationSignerAuthorized (account signer : address)
| AccountDataEncryptionKeySet (account : address) (key : list byte)
| AccountMetadataURLSet (account : address) (url : string)
| AccountWalletAddressSet (account wallet : address).

(** ** Reverts

    All but one [require] of the source revert without a reason string, so the
    contract itself does not tell its failures apart.  The embedding tags
    each revert with the condition that caused it, named as in the error
    taxonomy of the specification. *)
Inductive Error : Type :=
| AlreadyIdentity          (* createAccount: [isNotAccount(msg.sender)] is false *)
| AlreadyDelegate          (* createAccount: [isNotAuthorized(msg.sender)] is false *)
| UnknownIdentity          (* [isAccount(...)] is false *)
| CandidateIsIdentity      (* authorize: [isNotAccount(current)] is false *)
| CandidateAlreadyClaimed  (* authorize: [isNotAuthorized(current)] is false *)
| InvalidSignature         (* authorize: [signer == current] is false *)
| StaleAuthorization       (* getAccountFrom..Signer: the slot of the claiming account differs *)
| KeyTooShort              (* "data encryption key length <= 32" *)
| ReentrantCall.           (* the re-entrancy guard is held *)

Inductive Result (A : Type) : Type :=
| Ok (a : A)
| Revert (e : Error).
Arguments Ok {A} a.
Arguments Revert {A} e.

(** ** The transaction monad

    A computation takes the storage and either reverts or returns a value,
    the new storage and the events it emitted. *)
Definition Tx (A : Type) : Type := State -> Result (A * State * list Event).

Definition ret {A : Type} (a : A) : Tx A := fun st => Ok (a, st, []).

Definition bind {A B : Type} (m : Tx A) (k : A -> Tx B) : Tx B :=
  fun st =>
    match m st with
    | Revert e => Revert e
    | Ok (a, st1, ev1) =>
        match k a st1 with
        | Revert e => Revert e
        | Ok (b, st2, ev2) => Ok (b, st2, ev1 ++ ev2)
        end
    end.

Notation "x <- m ;; k" := (bind m (fun x => k))
  (at level 61, m at next level, right associativity).
Notation "m ;; k" := (bind m (fun _ => k))
  (at level 61, right associativity).

(** Read a view of the storage. *)
Definition read {A : Type} (f : State -> A) : Tx A := fun st => Ok (f st, st, []).
(** Apply a storage write. *)
Definition write (f : State -> State) : Tx unit := fun st => Ok (tt, f st, []).
Definition emit (ev : Event) : Tx unit := fun st => Ok (tt, st, [ev]).
Definition require (b : bool) (e : Error) : Tx unit :=
  fun st => if b then Ok (tt, st, []) else Revert e.

(** [require(c1 && c2 && ...)]: the conjuncts are evaluated from left to
    right and the revert is tagged with the first one that is false. *)
Fixpoint require_all (cs : list (bool * Error)) : Tx unit :=
  match cs with
  | [] => ret tt
  | (b, e) :: cs' => require b e ;; require_all cs'
  end.

(** ** View functions *)

Definition isAccount (st : State) (account : address) : bool :=
  account_exists (accounts st account).

Definition isNotAccount (st : State) (account : address) : bool :=
  negb (account_exists (accounts st account)).

Definition isAuthorized (st : State) (account : address) : bool :=
  negb (authorizedBy st account =? address0).

Definition isNotAuthorized (st : State) (account : address) : bool :=
  authorizedBy st account =? address0.

Definition getMetadataURL (st : State) (account : address) : string :=
  metadataURL (accounts st account).
Definition getDataEncryptionKey (st : State) (account : address) : list byte :=
  dataEncryptionKey (accounts st account).
Definition getWalletAddress (st : State) (account : address) : address :=
  walletAddress (accounts st account).

(** Resolvers from a signer (or an account acting for itself) to the account.
    The first [require] re-checks the slot of the claiming account for the
    queried role, the second that an unclaimed address is an account. *)
Definition getAccountFromAttestationSigner (st : State) (accountOrAttestationSigner : address)
  : Result address :=
  let authorizingAccount := authorizedBy st accountOrAttestationSigner in
  if negb (authorizingAccount =? address0) then
    if attesting (signers (accounts st authorizingAccount)) =? accountOrAttestationSigner
    then Ok authorizingAccount
    else Revert StaleAuthorization
  else
    if isAccount st accountOrAttestationSigner
    then Ok accountOrAttestationSigner
    else Revert UnknownIdentity.

Definition getAccountFromVoteSigner (st : State) (accountOrVoteSigner : address)
  : Result address :=
  let authorizingAccount := authorizedBy st accountOrVoteSigner in
  if negb (authorizingAccount =? address0) then
    if voting (signers (accounts st authorizingAccount)) =? accountOrVoteSigner
    then Ok authorizingAccount
    else Revert StaleAuthorization
  else
    if isAccount st accountOrVoteSigner
    then Ok accountOrVoteSigner
    else Revert UnknownIdentity.

Definition getAccountFromValidationSigner (st : State) (accountOrValidationSigner : address)
  : Result address :=
  let authorizingAccount := authorizedBy st accountOrValidationSigner in
  if negb (authorizingAccount =? address0) then
    if validating (signers (accounts st authorizingAccount)) =? accountOrValidationSigner
    then Ok authorizingAccount
    else Revert StaleAuthorization
  else
    if isAccount st accountOrValidationSigner
    then Ok accountOrValidationSigner
    else Revert UnknownIdentity.

(** Resolvers from an account to the signer acting for it. *)
Definition getVoteSignerFromAccount (st : State) (account : address) : Result address :=
  if isAccount st account then
    let voter := voting (signers (accounts st account)) in
    Ok (if voter =? address0 then account else voter)
  else Revert UnknownIdentity.

Definition getValidationSignerFromAccount (st : State) (account : address) : Result address :=
  if isAccount st account then
    let validator := validating (signers (accounts st account)) in
    Ok (if validator =? address0 then account else validator)
  else Revert UnknownIdentity.

Definition getAttestationSignerFromAccount (st : State) (account : address) : Result address :=
  if isAccount st account then
    let attestor := attesting (signers (accounts st account)) in
    Ok (if attestor =? address0 then account else attestor)
  else Revert UnknownIdentity.

(** The resolvers indexed by role: [identityOf] is "resolve identity of
    delegate", [delegateOf] is "resolve delegate of identity". *)
Definition identityOf (R : Role) (st : State) (a : address) : Result address :=
  match R with
  | Voting => getAccountFromVoteSigner st a
  | Validating => getAccountFromValidationSigner st a
  | Attesting => getAccountFromAttestationSigner st a
  end.

Definition delegateOf (R : Role) (st : State) (account : address) : Result address :=
  match R with
  | Voting => getVoteSignerFromAccount st account
  | Validating => getValidationSignerFromAccount st account
  | Attesting => getAttestationSignerFromAccount st account
  end.

(** ** The re-entrancy guard *)

(** Modelled from the spec: the [nonReentrant] modifier comes from
    [openzeppelin-solidity/contracts/utils/ReentrancyGuard.sol], an external
    dependency of the contract.  Following the specification it is a guard
    taken at the start of the operation and released when it ends, and it
    rejects an operation that starts while the guard is held. *)
Definition nonReentrant {A : Type} (body : Tx A) : Tx A :=
  entered <- read guard_entered ;;
  require (negb entered) ReentrantCall ;;
  write (set_guard true) ;;
  a <- body ;;
  write (set_guard false) ;;
  ret a.

(** ** Entry points *)

Definition storage : Tx State := read (fun st => st).

Section Registry.

(** [Signatures.getSignerOfAddress(message, v, r, s)]: the address whose key
    signed [message].  The library lives in [common/Signatures.sol] and the
    registry only uses its result, so the embedding is generic in it. *)
Variable getSignerOfAddress : address -> N -> N -> N -> address.

Definition createAccount (sender : address) : Tx bool :=
  st <- storage ;;
  require_all [ (isNotAccount st sender, AlreadyIdentity);
                (isNotAuthorized st sender, AlreadyDelegate) ] ;;
  write (set_account sender (with_exists true)) ;;
  ret true.

Definition setMetadataURL (sender : address) (url : string) : Tx unit :=
  write (set_account sender (with_metadataURL url)) ;;
  emit (AccountMetadataURLSet sender url).

Definition setAccountDataEncryptionKey (sender : address) (key : list byte) : Tx unit :=
  require (33 <=? N.of_nat (List.length key)) KeyTooShort ;;
  write (set_account sender (with_dataEncryptionKey key)) ;;
  emit (AccountDataEncryptionKeySet sender key).

Definition setWalletAddress (sender : address) (wallet : address) : Tx unit :=
  write (set_account sender (with_walletAddress wallet)) ;;
  emit (AccountWalletAddressSet sender wallet).

Definition setAccount (sender : address) (key : list byte) (wallet : address) : Tx unit :=
  setAccountDataEncryptionKey sender key ;;
  setWalletAddress sender wallet.

(** The private helper shared by the three authorization entry points. *)
Definition authorize (sender current previous : address) (v r s : N) : Tx unit :=
  st <- storage ;;
  require_all [ (isAccount st sender, UnknownIdentity);
                (isNotAccount st current, CandidateIsIdentity);
                (isNotAuthorized st current, CandidateAlreadyClaimed) ] ;;
  let signer := getSignerOfAddress sender v r s in
  require (signer =? current) InvalidSignature ;;
  write (set_authorizedBy previous address0) ;;
  write (set_authorizedBy current sender).

Definition authorizeVoteSigner (sender voter : address) (v r s : N) : Tx unit :=
  nonReentrant (
    previous <- read (fun st => voting (signers (accounts st sender))) ;;
    authorize sender voter previous v r s ;;
    write (set_signer sender Voting voter) ;;
    emit (VoteSignerAuthorized sender voter)).

Definition authorizeValidationSigner (sender validator : address) (v r s : N) : Tx unit :=
  nonReentrant (
    previous <- read (fun st => validating (signers (accounts st sender))) ;;
    authorize sender validator previous v r s ;;
    write (set_signer sender Validating validator) ;;
    emit (ValidationSignerAuthorized sender validator)).

(** Unlike its two siblings this entry point carries no [nonReentrant]. *)
Definition authorizeAttestationSigner (sender attestor : address) (v r s : N) : Tx unit :=
  previous <- read (fun st => attesting (signers (accounts st sender))) ;;
  authorize sender attestor previous v r s ;;
  write (set_signer sender Attesting attestor) ;;
  emit (AttestationSignerAuthorized sender attestor).

(** The authorization entry points indexed by role. *)
Definition authorizeDelegate (sender : address) (R : Role) (candidate : address)
           (v r s : N) : Tx unit :=
  match R with
  | Voting => authorizeVoteSigner sender candidate v r s
  | Validating => authorizeValidationSigner sender candidate v r s
  | Attesting => authorizeAttestationSigner sender candidate v r s
  end.

(** ** Transactions *)

Inductive Call : Type :=
| CreateAccount
| SetAccount (key : list byte) (wallet : address)
| AuthorizeVoteSigner (voter : address) (v r s : N)
| AuthorizeValidationSigner (validator : address) (v r s : N)
| AuthorizeAttestationSigner (attestor : address) (v r s : N)
| SetMetadataURL (url : string)
| SetAccountDataEncryptionKey (key : list byte)
| SetWalletAddress (wallet : address).

Definition dispatch (sender : address) (c : Call) : Tx unit :=
  match c with
  | CreateAccount => createAccount sender ;; ret tt
  | SetAccount key wallet => setAccount sender key wallet
  | AuthorizeVoteSigner voter v r s => authorizeVoteSigner sender voter v r s
  | AuthorizeValidationSigner validator v r s =>
      authorizeValidationSigner sender validator v r s
  | AuthorizeAttestationSigner attestor v r s =>
      authorizeAttestationSigner sender attestor v r s
  | SetMetadataURL url => setMetadataURL sender url
  | SetAccountDataEncryptionKey key => setAccountDataEncryptionKey sender key
  | SetWalletAddress wallet => setWalletAddress sender wallet
  end.

Definition AuthorizeSigner (R : Role) (candidate : address) (v r s : N) : Call :=
  match R with
  | Voting => AuthorizeVoteSigner candidate v r s
  | Validating => AuthorizeValidationSigner candidate v r s
  | Attesting => AuthorizeAttestationSigner candidate v r s
  end.

(** A transaction either commits the storage its call computed or reverts,
    and a revert restores the storage the transaction started from. *)
Definition transact (sender : address) (c : Call) (st : State) : State * option Error :=
  match dispatch sender c st with
  | Ok (_, st', _) => (st', None)
  | Revert e => (st, Some e)
  end.

Definition exec (st : State) (tx : address * Call) : State :=
  fst (transact (fst tx) (snd tx) st).

(** The storage after a sequence of transactions, failed ones included. *)
Definition run (txs : list (address * Call)) (st : State) : State :=
  fold_left exec txs st.

(** A transaction is sent by an externally owned account or by a contract,
    never by the zero address, for which nobody holds a key: the states the
    registry can be in are those built from [genesis] by senders other
    than [address0]. *)
Inductive reachable : State -> Prop :=
| reachable_genesis : reachable genesis
| reachable_exec (st : State) (sender : address) (c : Call) :
    reachable st -> sender <> address0 -> reachable (exec st (sender, c)).

End Registry.

(** * Properties *)

(** ** The entry points in closed form *)

Definition guarded (R : Role) : bool :=
  match R with
  | Voting | Validating => true
  | Attesting => false
  end.

Definition authorizedEvent (R : Role) (account signer : address) : Event :=
  match R with
  | Voting => VoteSignerAuthorized account signer
  | Validating => ValidationSignerAuthorized account signer
  | Attesting => AttestationSignerAuthorized account signer
  end.

(** The storage a successful authorization of [C] by [I] for role [R] leaves. *)
Definition authorized (R : Role) (I C : address) (st : State) : State :=
  mkState
    (upd (accounts st) I
         (with_signers (with_signer R C (signers (accounts st I))) (accounts st I)))
    (upd (upd (authorizedBy st) (slot st I R) address0) C I)
    (if guarded R then false else guard_entered st).

(** What one transaction can do to the storage: nothing (a revert),
    register the sender, rewrite profile fields of the sender, or record an
    authorization by the sender; [setAccount] does two such writes in a row. *)
Inductive effect (sender : address) (st : State) : State -> Prop :=
| effect_none : effect sender st st
| effect_create :
    isAccount st sender = false ->
    authorizedBy st sender = address0 ->
    effect sender st (set_account sender (with_exists true) st)
| effect_profile (f : Account -> Account) :
    (forall a, account_exists (f a) = account_exists a) ->
    (forall a, signers (f a) = signers a) ->
    effect sender st (set_account sender f st)
| effect_authorize (R : Role) (C : address) :
    (guarded R = true -> guard_entered st = false) ->
    isAccount st sender = true ->
    isAccount st C = false ->
    authorizedBy st C = address0 ->
    effect sender st (authorized R sender C st)
| effect_seq (st1 st2 : State) :
    effect sender st st1 -> effect sender st1 st2 -> effect sender st st2.

Ltac unfold_tx :=
  unfold authorizeDelegate, authorizeVoteSigner, authorizeValidationSigner,
    authorizeAttestationSigner, nonReentrant, authorize, createAccount,
    setAccount, setAccountDataEncryptionKey, setWalletAddress, setMetadataURL,
    storage, require_all, bind, read, write, require, emit, ret.

(** ** Invariants of the registry *)

(** No address is both a registered account and a claimed signer. *)
Definition disjoint (st : State) : Prop :=
  forall a, isAccount st a = true -> isAuthorized st a = false.

(** What holds of the two mappings between transactions: the guard is free,
    the zero address is not an account, accounts and claimed signers are
    disjoint, and [authorizedBy] mirrors the non-empty signer slots. *)
Record consistent (st : State) : Prop := mkConsistent {
  guard_free : guard_entered st = false;
  zero_unregistered : isAccount st address0 = false;
  accounts_unclaimed : forall a, isAccount st a = true -> authorizedBy st a = address0;
  slot_registered : forall I R, slot st I R <> address0 -> isAccount st I = true;
  slot_claimed : forall I R, slot st I R <> address0 -> authorizedBy st (slot st I R) = I;
  slot_injective :
    forall I R1 R2, slot st I R1 <> address0 -> slot st I R1 = slot st I R2 -> R1 = R2;
  claim_held :
    forall X, authorizedBy st X <> address0 ->
              isAccount st (authorizedBy st X) = true /\
              exists R, slot st (authorizedBy st X) R = X
}.

(** ** A test double for signature recovery and a few small registries *)

(** A signature [(v, r, s)] of the double names its signer in [r] and the
    message it signs in [s]; recovery against another message finds no
    signer and yields [address0]. *)
Definition toySigner (message : address) (v r s : N) : address :=
  if s =? message then r else address0.

(** Senders of a sequence of transactions are all different from [address0]. *)
Definition senders_nonzero (txs : list (address * Call)) : Prop :=
  Forall (fun tx => fst tx <> address0) txs.

(** Account 1 is registered. *)
Definition registry_1 : State :=
  run toySigner [ (1, CreateAccount) ] genesis.

(** Account 1 is registered and has authorized 2 as its vote signer. *)
Definition registry_1_votes_2 : State :=
  run toySigner [ (1, CreateAccount); (1, AuthorizeVoteSigner 2 27 2 1) ] genesis.

(** Accounts 1 and 3 are registered, 1 has authorized 2 as its vote signer. *)
Definition registry_13_votes_2 : State :=
  run toySigner [ (1, CreateAccount); (3, CreateAccount);
                  (1, AuthorizeVoteSigner 2 27 2 1) ] genesis.

(** Account 1 is registered and has authorized 2 as its validation signer. *)
Definition registry_1_validates_2 : State :=
  run toySigner [ (1, CreateAccount); (1, AuthorizeValidationSigner 2 27 2 1) ] genesis.


(** The calls that only write profile fields of the sender. *)
Definition is_profile_call (c : Call) : bool :=
  match c with
  | SetAccount _ _ | SetMetadataURL _ | SetAccountDataEncryptionKey _
  | SetWalletAddress _ => true
  | _ => false
  end.

(** * The validators wrapper

    [packages/contractkit/src/wrappers/Validators.ts], method [reorderMember]:
    from the member list of a group it works out the two neighbours that the
    contract call needs.  Addresses are strings here and arrays are lists. *)

Definition Address : Type := string.

(** A JavaScript number, as far as [reorderMember] can tell numbers apart:
    an integer value (the two zeros are one, the method treats [-0] as [0]
    throughout); a finite number [x] that is not an integer, given by its
    floor and by the integer values, if any, to which floating-point
    arithmetic rounds [x + 1] and [x - 1]; [NaN]; the two infinities. *)
Inductive JSNumber : Type :=
| JSInt (z : Z)
| JSFraction (floor : Z) (plusOne minusOne : option Z)
| JSNaN
| JSInfinity
| JSNegInfinity.

(** [x < n] for an integer [n]; a comparison with [NaN] is false. *)
Definition js_lt (x : JSNumber) (n : Z) : bool :=
  match x with
  | JSInt z => (z <? n)%Z
  | JSFraction f _ _ => (f <? n)%Z
  | JSNaN => false
  | JSInfinity => false
  | JSNegInfinity => true
  end.

(** [x >= n] for an integer [n]. *)
Definition js_ge (x : JSNumber) (n : Z) : bool :=
  match x with
  | JSInt z => (z >=? n)%Z
  | JSFraction f _ _ => (f >=? n)%Z
  | JSNaN => false
  | JSInfinity => true
  | JSNegInfinity => false
  end.

(** [n === x] for an integer [n]. *)
Definition js_eq (n : Z) (x : JSNumber) : bool :=
  match x with
  | JSInt z => (n =? z)%Z
  | _ => false
  end.

(** The integer value of [x + 1] and of [x - 1], when it is an integer. *)
Definition js_plusOne (x : JSNumber) : option Z :=
  match x with
  | JSInt z => Some (z + 1)%Z
  | JSFraction _ plusOne _ => plusOne
  | _ => None
  end.

Definition js_minusOne (x : JSNumber) : option Z :=
  match x with
  | JSInt z => Some (z - 1)%Z
  | JSFraction _ _ minusOne => minusOne
  | _ => None
  end.

(** [Array.prototype.indexOf]: the first index holding [x], or [-1]. *)
Fixpoint indexOf_from (x : Address) (l : list Address) (i : Z) : Z :=
  match l with
  | [] => (-1)%Z
  | y :: l' => if String.eqb y x then i else indexOf_from x l' (i + 1)%Z
  end.

Definition indexOf (x : Address) (l : list Address) : Z := indexOf_from x l 0%Z.

(** Where [splice(start, ...)] starts on an array of length [len]: [start]
    is truncated towards zero ([NaN] counts as [0]), a negative start counts
    from the end, and the result is kept within [0 .. len]. *)
Definition clampStart (t : Z) (len : nat) : nat :=
  if (t <? 0)%Z then Z.to_nat (Z.max (Z.of_nat len + t) 0)
  else Z.to_nat (Z.min t (Z.of_nat len)).

Definition actualStart (start : JSNumber) (len : nat) : nat :=
  match start with
  | JSInt z => clampStart z len
  | JSFraction f _ _ => clampStart (if (f <? 0)%Z then (f + 1)%Z else f) len
  | JSNaN => 0%nat
  | JSInfinity => len
  | JSNegInfinity => 0%nat
  end.

(** [Array.prototype.splice] from the position [start], already within the
    array: the array after the call. *)
Definition splice {A : Type} (start deleteCount : nat) (items l : list A) : list A :=
  firstn start l ++ items ++ skipn (start + deleteCount) l.

(** [l[i]] for an integer [i]; [None] is JavaScript's [undefined]. *)
Definition item {A : Type} (l : list A) (i : Z) : option A :=
  if (i <? 0)%Z then None else nth_error l (Z.to_nat i).

(** [l[x]] for an index computed as a number: an element only when the
    number is an integer. *)
Definition itemAt {A : Type} (l : list A) (x : option Z) : option A :=
  match x with
  | Some i => item l i
  | None => None
  end.

Inductive ReorderError : Type :=
| InvalidIndex (newIndex : JSNumber) (maxIndex : Z)
| NotIncluded (groupAddr validator : Address)
| AlreadyInPosition (newIndex : JSNumber).

(** The arguments of the contract call [reorderMember(validator, nextMember,
    prevMember)] and the sender of the transaction. *)
Record ReorderCall : Type := mkReorderCall {
  call_validator : Address;
  call_nextMember : option Address;
  call_prevMember : option Address;
  call_from : Address
}.

(** [group.members] after the two [splice] calls. *)
Definition reorderedMembers (members : list Address) (validator : Address)
           (currentIdx : Z) (newIndex : JSNumber) : list Address :=
  let removed := splice (Z.to_nat currentIdx) 1 [] members in
  splice (actualStart newIndex (List.length removed)) 0 [validator] removed.

Section ValidatorsWrapper.

(** [NULL_ADDRESS] is imported from [../base]. *)
Variable NULL_ADDRESS : Address.

(** [reorderMember] on the member list that [getValidatorGroup(groupAddr)]
    returned. *)
Definition reorderMember (members : list Address) (groupAddr validator : Address)
           (newIndex : JSNumber) : ReorderCall + ReorderError :=
  let len := Z.of_nat (List.length members) in
  if js_lt newIndex 0 || js_ge newIndex len then
    inr (InvalidIndex newIndex (len - 1)%Z)
  else
    let currentIdx := indexOf validator members in
    if (currentIdx <? 0)%Z then inr (NotIncluded groupAddr validator)
    else if js_eq currentIdx newIndex then inr (AlreadyInPosition newIndex)
    else
      let members' := reorderedMembers members validator currentIdx newIndex in
      let nextMember :=
          if js_eq (Z.of_nat (List.length members') - 1)%Z newIndex
          then Some NULL_ADDRESS else itemAt members' (js_plusOne newIndex) in
      let prevMember :=
          if js_eq 0%Z newIndex
          then Some NULL_ADDRESS else itemAt members' (js_minusOne newIndex) in
      inl (mkReorderCall validator nextMember prevMember groupAddr).

End ValidatorsWrapper.

(** * The private-keys wallet provider

    [packages/contractkit/src/providers/celo-private-keys-subprovider.ts]:
    the store of signing keys, keyed by lower-case account address.  A string
    is a sequence of 8-bit code units. *)

(** [String.prototype.toLowerCase] on one code unit below 256: the letters
    A to Z and the Latin-1 capitals 192 to 222, the multiplication sign 215
    apart, move up by 32. *)
Definition toLowerCaseUnit (c : ascii) : ascii :=
  let n := nat_of_ascii c in
  if ((65 <=? n) && (n <=? 90) ||
      (192 <=? n) && (n <=? 222) && negb (n =? 215))%nat
  then ascii_of_nat (n + 32) else c.

Fixpoint toLowerCase (s : string) : string :=
  match s with
  | EmptyString => EmptyString
  | String c s' => String (toLowerCaseUnit c) (toLowerCase s')
  end.

(** [s.startsWith(p)] *)
Definition startsWith (p s : string) : bool := String.prefix p s.

(** [s.substring(n)] *)
Fixpoint substringFrom (n : nat) (s : string) : string :=
  match n, s with
  | O, _ => s
  | S n', String _ s' => substringFrom n' s'
  | S _, EmptyString => EmptyString
  end.

Definition getPrivateKeyWithout0xPrefix (privateKey : string) : string :=
  if startsWith "0x" (toLowerCase privateKey)
  then substringFrom 2 privateKey else privateKey.

(** A [Map<string, string>]: its entries in insertion order, keys distinct. *)
Definition KeyMap : Type := list (string * string).

Definition map_has (k : string) (m : KeyMap) : bool :=
  existsb (fun e => String.eqb (fst e) k) m.

Fixpoint map_get (k : string) (m : KeyMap) : option string :=
  match m with
  | [] => None
  | (k', v) :: m' => if String.eqb k' k then Some v else map_get k m'
  end.

(** [Map.prototype.set]: the value of a present key is replaced in place, a
    new key goes last. *)
Fixpoint map_set (k v : string) (m : KeyMap) : KeyMap :=
  match m with
  | [] => [(k, v)]
  | (k', v') :: m' =>
      if String.eqb k' k then (k', v) :: m' else (k', v') :: map_set k v m'
  end.

Section PrivateKeysProvider.

(** [new Web3().eth.accounts.privateKeyToAccount(privateKey).address] *)
Variable privateKeyToAddress : string -> string.

Definition generateAccountAddressFromPrivateKey (privateKey : string) : string :=
  let privateKey :=
      if negb (startsWith "0x" (toLowerCase privateKey))
      then ("0x" ++ privateKey)%string else privateKey in
  privateKeyToAddress privateKey.

(** [addAccount] on the field [accountAddressToPrivateKey]. *)
Definition addAccount (m : KeyMap) (privateKey : string) : KeyMap :=
  let privateKey := ("0x" ++ getPrivateKeyWithout0xPrefix privateKey)%string in
  let accountAddress := toLowerCase (generateAccountAddressFromPrivateKey privateKey) in
  if map_has accountAddress m then m
  else map_set accountAddress privateKey m.

Definition getAccounts (m : KeyMap) : list string := map fst m.

(** [canSign]; the locale is one without casing rules of its own, so that
    [toLocaleLowerCase] is [toLowerCase]. *)
Definition canSign (m : KeyMap) (from : string) : bool :=
  map_has (toLowerCase from) m.

(** [getPrivateKeyFor]; [None] stands for the [Error] it throws. *)
Definition getPrivateKeyFor (m : KeyMap) (account : string) : option string :=
  map_get (toLowerCase account) m.

(** The key store after the constructor and further [addAccount] calls. *)
Definition providerKeys (privateKey : string) (more : list string) : KeyMap :=
  fold_left addAccount more (addAccount [] privateKey).

End PrivateKeysProvider.

(** ** Small inputs for the wrapper and the key store *)

Definition group_abcd : list Address := ["0xa"; "0xb"; "0xc"; "0xd"]%string.

Definition null_address : Address := "0x0000000000000000000000000000000000000000"%string.

(** A test double for the derivation of an address from a key: the key
    without its first two characters, in capitals after a fixed prefix. *)
Definition toyAddressOf (privateKey : string) : string :=
  ("0xAD" ++ substringFrom 2 privateKey)%string.

(** ** Reading the storage after a write *)

Lemma Role_eq_dec (R1 R2 : Role) : {R1 = R2} + {R1 <> R2}.
Proof. decide equality. Defined.

Lemma upd_eq {V : Type} (f : address -> V) (k : address) (v : V) :
  upd f k v k = v.
Proof. unfold upd. now rewrite N.eqb_refl. Qed.

Lemma upd_neq {V : Type} (f : address -> V) (k x : address) (v : V) :
  x <> k -> upd f k v x = f x.
Proof. unfold upd. intros H. now destruct (N.eqb_spec x k). Qed.

Lemma signerOf_with_signer_same (R : Role) (x : address) (sg : Signers) :
  signerOf R (with_signer R x sg) = x.
Proof. now destruct R. Qed.

Lemma signerOf_with_signer_other (R R' : Role) (x : address) (sg : Signers) :
  R' <> R -> signerOf R' (with_signer R x sg) = signerOf R' sg.
Proof. destruct R, R'; intros H; try reflexivity; now elim H. Qed.

Lemma isAccount_set_account (who a : address) (f : Account -> Account) (st : State) :
  (forall acc, account_exists (f acc) = account_exists acc) ->
  isAccount (set_account who f st) a = isAccount st a.
Proof.
  intros Hf. unfold isAccount, set_account, upd; cbn.
  destruct (N.eqb_spec a who); [subst; apply Hf | reflexivity].
Qed.

Lemma slot_set_account (who a : address) (f : Account -> Account) (R : Role)
      (st : State) :
  (forall acc, signers (f acc) = signers acc) ->
  slot (set_account who f st) a R = slot st a R.
Proof.
  intros Hf. unfold slot, set_account, upd; cbn.
  destruct (N.eqb_spec a who); [subst; now rewrite Hf | reflexivity].
Qed.

Lemma isAccount_authorized (R : Role) (I C a : address) (st : State) :
  isAccount (authorized R I C st) a = isAccount st a.
Proof.
  unfold isAccount, authorized, upd; cbn.
  destruct (N.eqb_spec a I); [subst|]; reflexivity.
Qed.

Lemma slot_authorized_same (R : Role) (I C : address) (st : State) :
  slot (authorized R I C st) I R = C.
Proof.
  unfold slot, authorized; cbn. rewrite upd_eq; cbn.
  apply signerOf_with_signer_same.
Qed.

Lemma slot_authorized_other_role (R R' : Role) (I C : address) (st : State) :
  R' <> R -> slot (authorized R I C st) I R' = slot st I R'.
Proof.
  intros H. unfold slot, authorized; cbn. rewrite upd_eq; cbn.
  now apply signerOf_with_signer_other.
Qed.

Lemma slot_authorized_other_account (R R' : Role) (I C J : address) (st : State) :
  J <> I -> slot (authorized R I C st) J R' = slot st J R'.
Proof.
  intros H. unfold slot, authorized; cbn. now rewrite upd_neq.
Qed.

(** A slot after an authorization is either the one just written or the one
    it was. *)
Lemma slot_authorized_cases (R R' : Role) (I C J : address) (st : State) :
  (J = I /\ R' = R /\ slot (authorized R I C st) J R' = C) \/
  ((J <> I \/ R' <> R) /\ slot (authorized R I C st) J R' = slot st J R').
Proof.
  destruct (N.eq_dec J I) as [->|HJ].
  - destruct (Role_eq_dec R' R) as [->|HR].
    + left. auto using slot_authorized_same.
    + right. auto using slot_authorized_other_role.
  - right. auto using slot_authorized_other_account.
Qed.

Lemma authorizedBy_authorized (R : Role) (I C x : address) (st : State) :
  authorizedBy (authorized R I C st) x =
  if x =? C then I else if x =? slot st I R then address0 else authorizedBy st x.
Proof. reflexivity. Qed.

Section RegistryFacts.

Variable getSignerOfAddress : address -> N -> N -> N -> address.

Lemma identityOf_eq (R : Role) (st : State) (a : address) :
  identityOf R st a =
  if negb (authorizedBy st a =? address0) then
    if slot st (authorizedBy st a) R =? a
    then Ok (authorizedBy st a) else Revert StaleAuthorization
  else if isAccount st a then Ok a else Revert UnknownIdentity.
Proof. destruct R; reflexivity. Qed.

Lemma delegateOf_eq (R : Role) (st : State) (a : address) :
  delegateOf R st a =
  if isAccount st a
  then Ok (if slot st a R =? address0 then a else slot st a R)
  else Revert UnknownIdentity.
Proof. destruct R; reflexivity. Qed.

Lemma authorizeDelegate_eq (I : address) (R : Role) (C : address) (v r s : N)
      (st : State) :
  authorizeDelegate getSignerOfAddress I R C v r s st =
  if guarded R && guard_entered st then Revert ReentrantCall
  else if negb (isAccount st I) then Revert UnknownIdentity
  else if isAccount st C then Revert CandidateIsIdentity
  else if negb (authorizedBy st C =? address0) then Revert CandidateAlreadyClaimed
  else if negb (getSignerOfAddress I v r s =? C) then Revert InvalidSignature
  else Ok (tt, authorized R I C st, [authorizedEvent R I C]).
Proof.
  destruct st as [acc ab g].
  destruct R; unfold_tx; unfold isAccount, isNotAccount, isNotAuthorized;
    cbn -[N.eqb];
    destruct g; cbn -[N.eqb]; try reflexivity;
    destruct (account_exists (acc I)); cbn -[N.eqb]; try reflexivity;
    destruct (account_exists (acc C)); cbn -[N.eqb]; try reflexivity;
    destruct (ab C =? address0); cbn -[N.eqb]; try reflexivity;
    destruct (getSignerOfAddress I v r s =? C); cbn -[N.eqb]; reflexivity.
Qed.

(** A successful authorization, read off the closed form. *)
Lemma authorizeDelegate_ok (I : address) (R : Role) (C : address) (v r s : N)
      (st st' : State) (evs : list Event) :
  authorizeDelegate getSignerOfAddress I R C v r s st = Ok (tt, st', evs) ->
  (guarded R = true -> guard_entered st = false) /\
  isAccount st I = true /\ isAccount st C = false /\
  authorizedBy st C = address0 /\ getSignerOfAddress I v r s = C /\
  st' = authorized R I C st.
Proof.
  rewrite authorizeDelegate_eq.
  destruct (guarded R) eqn:HG; destruct (guard_entered st) eqn:Hg; cbn -[N.eqb];
    try discriminate;
    destruct (isAccount st I); cbn -[N.eqb]; try discriminate;
    destruct (isAccount st C); cbn -[N.eqb]; try discriminate;
    destruct (N.eqb_spec (authorizedBy st C) address0); cbn -[N.eqb];
    try discriminate;
    destruct (N.eqb_spec (getSignerOfAddress I v r s) C); cbn -[N.eqb];
    try discriminate;
    intros H; inversion H; subst; repeat split; auto; discriminate.
Qed.

Lemma dispatch_authorize (sender : address) (R : Role) (C : address) (v r s : N) :
  dispatch getSignerOfAddress sender (AuthorizeSigner R C v r s) =
  authorizeDelegate getSignerOfAddress sender R C v r s.
Proof. destruct R; reflexivity. Qed.

Lemma transact_authorize (sender : address) (R : Role) (C : address) (v r s : N)
      (st : State) :
  effect sender st (fst (transact getSignerOfAddress sender (AuthorizeSigner R C v r s) st)).
Proof.
  unfold transact. rewrite dispatch_authorize.
  destruct (authorizeDelegate getSignerOfAddress sender R C v r s st)
    as [[[[] st'] evs]|e] eqn:E; cbn; [|constructor].
  apply authorizeDelegate_ok in E. destruct E as (Hg & HI & HC & Hab & _ & ->).
  now apply effect_authorize.
Qed.

Lemma exec_effect (st : State) (sender : address) (c : Call) :
  effect sender st (exec getSignerOfAddress st (sender, c)).
Proof.
  unfold exec; cbn [fst snd].
  destruct c as [|key wallet|C v r s|C v r s|C v r s|url|key|wallet].
  - unfold transact, dispatch; unfold_tx; unfold isNotAccount, isNotAuthorized.
    destruct (account_exists (accounts st sender)) eqn:E; cbn -[N.eqb];
      [constructor|].
    destruct (N.eqb_spec (authorizedBy st sender) address0); cbn -[N.eqb];
      [|constructor].
    now apply effect_create.
  - unfold transact, dispatch; unfold_tx.
    destruct (33 <=? N.of_nat (List.length key)); cbn; [|constructor].
    eapply effect_seq; apply effect_profile; reflexivity.
  - apply (transact_authorize sender Voting).
  - apply (transact_authorize sender Validating).
  - apply (transact_authorize sender Attesting).
  - unfold transact, dispatch; unfold_tx; cbn. apply effect_profile; reflexivity.
  - unfold transact, dispatch; unfold_tx.
    destruct (33 <=? N.of_nat (List.length key)); cbn; [|constructor].
    apply effect_profile; reflexivity.
  - unfold transact, dispatch; unfold_tx; cbn. apply effect_profile; reflexivity.
Qed.

(** ** Preservation of the invariants *)

Lemma effect_accounts_unclaimed (sender : address) (st st' : State) :
  effect sender st st' ->
  (forall a, isAccount st a = true -> authorizedBy st a = address0) ->
  forall a, isAccount st' a = true -> authorizedBy st' a = address0.
Proof.
  induction 1 as [st|st Hn Hab|st f Hf Hs|st R C Hg HI HC Hab|st st1 st2 H1 IH1 H2 IH2];
    intros Hinv a Ha; auto.
  - unfold isAccount, set_account, upd in *; cbn in *.
    destruct (N.eqb_spec a sender); [now subst | now apply Hinv].
  - rewrite isAccount_set_account in Ha by assumption. now apply Hinv.
  - rewrite isAccount_authorized in Ha. rewrite authorizedBy_authorized.
    destruct (N.eqb_spec a C); [subst; congruence|].
    destruct (N.eqb_spec a (slot st sender R)); [reflexivity | now apply Hinv].
Qed.

Lemma effect_consistent (sender : address) (st st' : State) :
  effect sender st st' -> sender <> address0 -> consistent st -> consistent st'.
Proof.
  induction 1 as [st|st Hn Hab|st f Hf Hs|st R C Hg HI HC Hab|st st1 st2 H1 IH1 H2 IH2];
    intros Hs0 Hc; auto.
  - (* createAccount *)
    destruct Hc as [G Z D SR SC SI CH].
    assert (Hacc : forall a, isAccount (set_account sender (with_exists true) st) a
                             = if a =? sender then true else isAccount st a).
    { intros a. unfold isAccount, set_account, upd; cbn.
      now destruct (N.eqb_spec a sender). }
    assert (Hsl : forall a R, slot (set_account sender (with_exists true) st) a R
                              = slot st a R)
      by (intros; now apply slot_set_account).
    constructor; cbn [authorizedBy guard_entered set_account]; auto.
    + rewrite Hacc. destruct (N.eqb_spec address0 sender); congruence.
    + intros a. rewrite Hacc. destruct (N.eqb_spec a sender); [now subst | apply D].
    + intros I R. rewrite Hsl, Hacc. intros H.
      destruct (N.eqb_spec I sender); [reflexivity | now apply (SR I R)].
    + intros I R. rewrite Hsl. apply SC.
    + intros I R1 R2. rewrite !Hsl. apply SI.
    + intros X HX. destruct (CH X HX) as [HA [R HR]]. split.
      * rewrite Hacc. destruct (N.eqb_spec (authorizedBy st X) sender); auto.
      * exists R. now rewrite Hsl.
  - (* profile setters *)
    destruct Hc as [G Z D SR SC SI CH].
    constructor; cbn [authorizedBy guard_entered set_account]; auto.
    + now rewrite isAccount_set_account.
    + intros a. rewrite isAccount_set_account by assumption. apply D.
    + intros I R. rewrite slot_set_account, isAccount_set_account by assumption.
      apply SR.
    + intros I R. rewrite slot_set_account by assumption. apply SC.
    + intros I R1 R2. rewrite !slot_set_account by assumption. apply SI.
    + intros X HX. destruct (CH X HX) as [HA [R HR]]. split.
      * now rewrite isAccount_set_account.
      * exists R. now rewrite slot_set_account.
  - (* authorize *)
    pose proof (effect_accounts_unclaimed sender st _
                  (effect_authorize sender st R C Hg HI HC Hab)) as HD.
    destruct Hc as [G Z D SR SC SI CH].
    assert (HCclean : forall J R', slot st J R' <> address0 -> slot st J R' <> C).
    { intros J R' Hne Heq. pose proof (SC J R' Hne) as E. rewrite Heq, Hab in E.
      pose proof (SR J R' Hne) as A. rewrite <- E in A. congruence. }
    constructor.
    + cbn. destruct (guarded R); auto.
    + now rewrite isAccount_authorized.
    + now apply HD.
    + intros J R'. rewrite isAccount_authorized.
      destruct (slot_authorized_cases R R' sender C J st)
        as [(-> & -> & E)|(_ & E)]; rewrite E; [auto | apply SR].
    + intros J R'. rewrite authorizedBy_authorized.
      destruct (slot_authorized_cases R R' sender C J st)
        as [(-> & -> & E)|(Hd & E)]; rewrite E; intros Hne.
      * now rewrite N.eqb_refl.
      * destruct (N.eqb_spec (slot st J R') C) as [HeqC|_];
          [now elim (HCclean J R' Hne)|].
        destruct (N.eqb_spec (slot st J R') (slot st sender R)) as [HeqP|_];
          [|now apply SC].
        exfalso. pose proof (SC J R' Hne) as E1.
        rewrite HeqP in Hne. pose proof (SC sender R Hne) as E2.
        rewrite HeqP, E2 in E1. subst J.
        apply (SI sender R R') in Hne; [|now symmetry].
        destruct Hd; congruence.
    + intros J R1 R2.
      destruct (slot_authorized_cases R R1 sender C J st)
        as [(HJ1 & HR1 & E1)|(Hd1 & E1)];
        destruct (slot_authorized_cases R R2 sender C J st)
          as [(HJ2 & HR2 & E2)|(Hd2 & E2)]; rewrite E1, E2; intros Hne Heq;
        try congruence.
      * rewrite Heq in Hne. now elim (HCclean J R2 Hne).
      * now elim (HCclean J R1 Hne).
      * now apply (SI J).
    + intros X. rewrite authorizedBy_authorized.
      destruct (N.eqb_spec X C) as [->|HXC].
      * intros _. rewrite isAccount_authorized. split; [assumption|].
        exists R. apply slot_authorized_same.
      * destruct (N.eqb_spec X (slot st sender R)) as [->|HXP]; [congruence|].
        intros HX. destruct (CH X HX) as [HA [R' HR']].
        rewrite isAccount_authorized. split; [assumption|]. exists R'.
        destruct (slot_authorized_cases R R' sender C (authorizedBy st X) st)
          as [(HJ & -> & E)|(_ & E)]; [|now rewrite E].
        rewrite HJ in HR'. now elim HXP.
Qed.

Lemma genesis_consistent : consistent genesis.
Proof.
  assert (Hslot : forall I R, slot genesis I R = address0)
    by (intros I R; now destruct R).
  constructor.
  - reflexivity.
  - reflexivity.
  - reflexivity.
  - intros I R H. elim H. apply Hslot.
  - intros I R H. elim H. apply Hslot.
  - intros I R1 R2 H. elim H. apply Hslot.
  - intros X H. elim H. reflexivity.
Qed.

Lemma reachable_consistent (st : State) :
  reachable getSignerOfAddress st -> consistent st.
Proof.
  induction 1 as [|st sender c _ IH Hs]; [apply genesis_consistent|].
  eapply effect_consistent; eauto using exec_effect.
Qed.

Lemma run_reachable (txs : list (address * Call)) (st : State) :
  senders_nonzero txs -> reachable getSignerOfAddress st ->
  reachable getSignerOfAddress (run getSignerOfAddress txs st).
Proof.
  unfold run. revert st.
  induction txs as [|[sender c] txs IH]; intros st Hs Hr; [exact Hr|].
  inversion Hs as [|tx l Hhd Htl]; subst. cbn [fold_left].
  apply IH; [assumption|]. now apply reachable_exec.
Qed.

Lemma disjoint_iff (st : State) :
  disjoint st <-> (forall a, isAccount st a = true -> authorizedBy st a = address0).
Proof.
  unfold disjoint, isAuthorized.
  split; intros H a Ha; specialize (H a Ha);
    destruct (N.eqb_spec (authorizedBy st a) address0); cbn in *; congruence.
Qed.

Lemma exec_disjoint (st : State) (tx : address * Call) :
  disjoint st -> disjoint (exec getSignerOfAddress st tx).
Proof.
  destruct tx as [sender c]. rewrite !disjoint_iff.
  apply (effect_accounts_unclaimed sender), exec_effect.
Qed.

Lemma run_disjoint (txs : list (address * Call)) (st : State) :
  disjoint st -> disjoint (run getSignerOfAddress txs st).
Proof.
  unfold run. revert st.
  induction txs as [|tx txs IH]; intros st Hd; [exact Hd|].
  cbn [fold_left]. now apply IH, exec_disjoint.
Qed.

(** ** Disjointness of accounts and claimed signers *)

(** C1.  Whatever sequence of transactions is run from the empty registry
    (any senders, any of the entry points, successful or reverted), after
    each of its steps no address is both an existing account and a claimed
    signer, that is, mapped to a non-zero account by [authorizedBy]. *)
Theorem disjoint_after_every_step (txs : list (address * Call)) (n : nat) :
  disjoint (run getSignerOfAddress (firstn n txs) genesis).
Proof.
  apply run_disjoint. intros a Ha. discriminate Ha.
Qed.

(** ** The re-check of the signer-to-account resolvers *)

(** C2, as amended.  In a reachable registry a signer-to-account resolver
    fails its re-check only when it is asked about the wrong role: the
    queried address is then claimed by an account that holds it in the slot
    of another role, and the resolver of that role returns the account. *)
Theorem stale_only_for_other_role (st : State) (R : Role) (X : address) :
  reachable getSignerOfAddress st ->
  identityOf R st X = Revert StaleAuthorization ->
  authorizedBy st X <> address0 /\
  exists R', R' <> R /\ slot st (authorizedBy st X) R' = X /\
             identityOf R' st X = Ok (authorizedBy st X).
Proof.
  intros Hr Hstale. apply reachable_consistent in Hr.
  rewrite identityOf_eq in Hstale.
  destruct (N.eqb_spec (authorizedBy st X) address0) as [E|Hne]; cbn in Hstale.
  - destruct (isAccount st X); discriminate.
  - split; [assumption|].
    destruct (claim_held st Hr X Hne) as [_ [R' HR']].
    exists R'. repeat split; trivial.
    + intros ->. rewrite HR', N.eqb_refl in Hstale. discriminate.
    + rewrite identityOf_eq.
      destruct (N.eqb_spec (authorizedBy st X) address0); [contradiction|].
      cbn. now rewrite HR', N.eqb_refl.
Qed.

(** ** Round trip of an authorization *)

(** X23.  When an account [I] of a reachable registry successfully
    authorizes a candidate [C] other than the zero address for role [R], the
    resolvers of role [R] afterwards map [C] to [I] and [I] to [C]. *)
Theorem authorize_round_trip (st st' : State) (I : address) (R : Role)
        (C : address) (v r s : N) (evs : list Event) :
  reachable getSignerOfAddress st ->
  C <> address0 ->
  authorizeDelegate getSignerOfAddress I R C v r s st = Ok (tt, st', evs) ->
  identityOf R st' C = Ok I /\ delegateOf R st' I = Ok C.
Proof.
  intros Hr HC Hok. apply reachable_consistent in Hr.
  apply authorizeDelegate_ok in Hok.
  destruct Hok as (_ & HI & _ & _ & _ & ->).
  assert (HI0 : I <> address0).
  { intros ->. rewrite (zero_unregistered st Hr) in HI. discriminate. }
  split.
  - rewrite identityOf_eq, authorizedBy_authorized, N.eqb_refl.
    destruct (N.eqb_spec I address0); [contradiction|]. cbn.
    now rewrite slot_authorized_same, N.eqb_refl.
  - rewrite delegateOf_eq, isAccount_authorized, HI, slot_authorized_same.
    now destruct (N.eqb_spec C address0).
Qed.

(** ** Claimed candidates *)

(** A transaction whose call reverts leaves the storage as it found it. *)
Lemma transact_revert (sender : address) (c : Call) (st : State) (e : Error) :
  dispatch getSignerOfAddress sender c st = Revert e ->
  transact getSignerOfAddress sender c st = (st, Some e).
Proof. unfold transact. now intros ->. Qed.

(** An account that asks for a claimed address, in a registry whose guard
    is free and whose accounts are unclaimed, is turned down at the third
    conjunct of the [require] of [authorize]. *)
Lemma authorize_claimed (st : State) (I : address) (R : Role) (C : address)
      (v r s : N) :
  consistent st ->
  isAccount st I = true ->
  authorizedBy st C <> address0 ->
  authorizeDelegate getSignerOfAddress I R C v r s st = Revert CandidateAlreadyClaimed.
Proof.
  intros Hc HI HC. rewrite authorizeDelegate_eq.
  rewrite (guard_free st Hc), andb_false_r, HI. cbn -[N.eqb].
  destruct (isAccount st C) eqn:EC.
  - now rewrite (accounts_unclaimed st Hc C EC) in HC.
  - now destruct (N.eqb_spec (authorizedBy st C) address0).
Qed.

(** C4.  In a reachable registry where [C] is claimed in [authorizedBy], by
    whichever account and for whichever role, every attempt of an account
    [I] to authorize [C] for a role [R] reverts on the already-claimed check,
    and the storage after the transaction is the storage before it.  This
    covers an [I] other than the claiming account and the claiming account
    itself with another role. *)
Theorem claimed_candidate_rejected (st : State) (I : address) (R : Role)
        (C : address) (v r s : N) :
  reachable getSignerOfAddress st ->
  isAccount st I = true ->
  authorizedBy st C <> address0 ->
  authorizeDelegate getSignerOfAddress I R C v r s st = Revert CandidateAlreadyClaimed /\
  transact getSignerOfAddress I (AuthorizeSigner R C v r s) st
  = (st, Some CandidateAlreadyClaimed).
Proof.
  intros Hr HI HC. apply reachable_consistent in Hr.
  pose proof (authorize_claimed st I R C v r s Hr HI HC) as E.
  split; [exact E|].
  apply transact_revert. now rewrite dispatch_authorize.
Qed.

(** C9.  In a reachable registry an account [I] whose slot for role [R]
    holds the signer [C] cannot authorize [C] for [R] once more: the call
    reverts on the already-claimed check whatever the signature, a valid one
    included, and the transaction changes nothing. *)
Theorem incumbent_resubmission_rejected (st : State) (I : address) (R : Role)
        (C : address) (v r s : N) :
  reachable getSignerOfAddress st ->
  slot st I R = C ->
  C <> address0 ->
  authorizeDelegate getSignerOfAddress I R C v r s st = Revert CandidateAlreadyClaimed /\
  transact getSignerOfAddress I (AuthorizeSigner R C v r s) st
  = (st, Some CandidateAlreadyClaimed).
Proof.
  intros Hr HS HC. apply reachable_consistent in Hr. subst C.
  assert (HI : isAccount st I = true) by now apply (slot_registered st Hr I R).
  assert (E : authorizeDelegate getSignerOfAddress I R (slot st I R) v r s st
              = Revert CandidateAlreadyClaimed).
  { apply authorize_claimed; trivial.
    rewrite (slot_claimed st Hr I R HC).
    intros ->. rewrite (zero_unregistered st Hr) in HI. discriminate. }
  split; [exact E|].
  apply transact_revert. now rewrite dispatch_authorize.
Qed.

(** ** Release of the replaced signer *)

(** C5.  In a reachable registry where the slot of [I] for role [R] holds
    the signer [C1], a successful authorization of another candidate [C2] for
    that slot clears the claim on [C1] in the same step: right afterwards
    [C1] can register as an account, and any existing account [other] can
    authorize [C1] for any role with a signature of [C1]. *)
Theorem release_on_replace (st st' : State) (I : address) (R : Role)
        (C1 C2 : address) (v r s : N) (evs : list Event) :
  reachable getSignerOfAddress st ->
  slot st I R = C1 ->
  C1 <> address0 ->
  authorizeDelegate getSignerOfAddress I R C2 v r s st = Ok (tt, st', evs) ->
  authorizedBy st' C1 = address0 /\
  createAccount C1 st' = Ok (true, set_account C1 (with_exists true) st', []) /\
  forall (other : address) (R' : Role) (v' r' s' : N),
    isAccount st' other = true ->
    getSignerOfAddress other v' r' s' = C1 ->
    authorizeDelegate getSignerOfAddress other R' C1 v' r' s' st'
    = Ok (tt, authorized R' other C1 st', [authorizedEvent R' other C1]).
Proof.
  intros Hr HS HC1 Hok.
  pose proof (reachable_consistent st Hr) as Hc.
  apply authorizeDelegate_ok in Hok.
  destruct Hok as (Hg & HI & HC2 & Hab2 & Hsig & ->). subst C1.
  pose proof (slot_claimed st Hc I R HC1) as Hcl.
  assert (HI0 : I <> address0).
  { intros ->. rewrite (zero_unregistered st Hc) in HI. discriminate. }
  assert (Hneq : slot st I R <> C2).
  { intros E. rewrite E, Hab2 in Hcl. congruence. }
  assert (Hrel : authorizedBy (authorized R I C2 st) (slot st I R) = address0).
  { rewrite authorizedBy_authorized.
    destruct (N.eqb_spec (slot st I R) C2); [contradiction|].
    now rewrite N.eqb_refl. }
  assert (Hna : isAccount (authorized R I C2 st) (slot st I R) = false).
  { rewrite isAccount_authorized.
    destruct (isAccount st (slot st I R)) eqn:E; [|reflexivity].
    rewrite (accounts_unclaimed st Hc _ E) in Hcl. congruence. }
  assert (Hgf : guard_entered (authorized R I C2 st) = false).
  { cbn. destruct (guarded R); [reflexivity | apply (guard_free st Hc)]. }
  split; [exact Hrel|]. split.
  - unfold_tx. unfold isNotAccount, isNotAuthorized.
    fold (isAccount (authorized R I C2 st) (slot st I R)).
    rewrite Hna, Hrel. reflexivity.
  - intros other R' v' r' s' Ho Hs'.
    rewrite authorizeDelegate_eq, Hgf, andb_false_r, Ho, Hna, Hrel, Hs'.
    now rewrite !N.eqb_refl.
Qed.

(** ** What an authorization changes *)

(** C10.  A successful authorization of [C] by [I] for role [R], with [P]
    the previous content of that slot, writes the slot of [I] for [R], the
    entry of [authorizedBy] for [P] and its entry for [C], and nothing
    else: the other entries of [authorizedBy], the records of the other
    accounts, the other two slots of [I], its existence flag and its profile
    fields, and the guard are as before.  The entry for [C] is written last,
    so it is the one that stands should [P] and [C] coincide. *)
Theorem authorize_frame (st st' : State) (I : address) (R : Role) (C : address)
        (v r s : N) (evs : list Event) :
  authorizeDelegate getSignerOfAddress I R C v r s st = Ok (tt, st', evs) ->
  slot st' I R = C /\
  authorizedBy st' C = I /\
  (slot st I R <> C -> authorizedBy st' (slot st I R) = address0) /\
  (forall x, x <> slot st I R -> x <> C -> authorizedBy st' x = authorizedBy st x) /\
  (forall J, J <> I -> accounts st' J = accounts st J) /\
  (forall R', R' <> R -> slot st' I R' = slot st I R') /\
  account_exists (accounts st' I) = account_exists (accounts st I) /\
  walletAddress (accounts st' I) = walletAddress (accounts st I) /\
  dataEncryptionKey (accounts st' I) = dataEncryptionKey (accounts st I) /\
  metadataURL (accounts st' I) = metadataURL (accounts st I) /\
  guard_entered st' = guard_entered st.
Proof.
  intros Hok. apply authorizeDelegate_ok in Hok.
  destruct Hok as (Hg & _ & _ & _ & _ & ->).
  split; [apply slot_authorized_same|].
  split; [now rewrite authorizedBy_authorized, N.eqb_refl|].
  split.
  { intros Hne. rewrite authorizedBy_authorized.
    destruct (N.eqb_spec (slot st I R) C); [contradiction|].
    now rewrite N.eqb_refl. }
  split.
  { intros x HxP HxC. rewrite authorizedBy_authorized.
    destruct (N.eqb_spec x C); [contradiction|].
    now destruct (N.eqb_spec x (slot st I R)). }
  split; [intros J HJ; cbn; now rewrite upd_neq|].
  split; [intros R' HR'; now apply slot_authorized_other_role|].
  cbn. rewrite upd_eq. cbn. repeat split.
  destruct (guarded R) eqn:EG; [|reflexivity].
  symmetry. now apply Hg.
Qed.

(** ** Self-default of the account-to-signer resolvers *)

(** C7.  For every role, the resolver from an account to its signer returns
    the account itself when the account is registered and its slot for the
    role is empty, and fails as for an unknown identity on an address that is
    not registered. *)
Theorem delegate_self_default (st : State) (R : Role) (A : address) :
  (isAccount st A = true -> slot st A R = address0 -> delegateOf R st A = Ok A) /\
  (isAccount st A = false -> delegateOf R st A = Revert UnknownIdentity).
Proof.
  rewrite delegateOf_eq. split.
  - intros -> ->. reflexivity.
  - intros ->. reflexivity.
Qed.

(** ** Profile setters *)

(** C8, as amended.  For every sender and every registry, [setWalletAddress]
    and [setMetadataURL] succeed on any value and store it as given;
    [setAccountDataEncryptionKey] does so for a key of at least 33 bytes and
    reverts, as its [require] demands, for a shorter one. *)
Theorem profile_setters (st : State) (sender : address) :
  (forall wallet,
      exists st', setWalletAddress sender wallet st
                  = Ok (tt, st', [AccountWalletAddressSet sender wallet]) /\
                  getWalletAddress st' sender = wallet) /\
  (forall url,
      exists st', setMetadataURL sender url st
                  = Ok (tt, st', [AccountMetadataURLSet sender url]) /\
                  getMetadataURL st' sender = url) /\
  (forall key,
      (33 <= List.length key)%nat ->
      exists st', setAccountDataEncryptionKey sender key st
                  = Ok (tt, st', [AccountDataEncryptionKeySet sender key]) /\
                  getDataEncryptionKey st' sender = key) /\
  (forall key,
      (List.length key < 33)%nat ->
      setAccountDataEncryptionKey sender key st = Revert KeyTooShort).
Proof.
  repeat split.
  - intros wallet. eexists. split; [reflexivity|].
    unfold getWalletAddress; cbn. now rewrite upd_eq.
  - intros url. eexists. split; [reflexivity|].
    unfold getMetadataURL; cbn. now rewrite upd_eq.
  - intros key Hlen. unfold_tx.
    destruct (N.leb_spec 33 (N.of_nat (List.length key))) as [_|Hlt]; [|lia].
    eexists. split; [reflexivity|].
    unfold getDataEncryptionKey; cbn. now rewrite upd_eq.
  - intros key Hlen. unfold_tx.
    destruct (N.leb_spec 33 (N.of_nat (List.length key))) as [Hle|_]; [lia|].
    reflexivity.
Qed.

(** ** The re-entrancy guard *)

(** The two guarded entry points turn down a call made while the guard is
    held. *)
Lemma guarded_entry_points_reject (st : State) (sender C : address) (v r s : N) :
  guard_entered st = true ->
  authorizeVoteSigner getSignerOfAddress sender C v r s st = Revert ReentrantCall /\
  authorizeValidationSigner getSignerOfAddress sender C v r s st = Revert ReentrantCall.
Proof.
  intros Hg. unfold_tx. now rewrite Hg.
Qed.

End RegistryFacts.

(** * The properties on concrete registries *)

Ltac concrete_reachable :=
  apply run_reachable;
  [ repeat constructor; discriminate | apply reachable_genesis ].

(** C2, as stated, fails: account 1 holds 2 as its validation signer, and
    the vote resolver asked about 2 fails its re-check. *)
Lemma stale_for_validation_signer :
  reachable toySigner registry_1_validates_2 /\
  authorizedBy registry_1_validates_2 2 = 1 /\
  getAccountFromValidationSigner registry_1_validates_2 2 = Ok 1 /\
  getAccountFromVoteSigner registry_1_validates_2 2 = Revert StaleAuthorization.
Proof.
  split; [concrete_reachable|]. repeat split.
Qed.

Lemma stale_only_for_other_role_witness :
  reachable toySigner registry_1_validates_2 /\
  identityOf Voting registry_1_validates_2 2 = Revert StaleAuthorization /\
  (authorizedBy registry_1_validates_2 2 <> address0 /\
   exists R', R' <> Voting /\
              slot registry_1_validates_2 (authorizedBy registry_1_validates_2 2) R' = 2 /\
              identityOf R' registry_1_validates_2 2
              = Ok (authorizedBy registry_1_validates_2 2)).
Proof.
  assert (Hr : reachable toySigner registry_1_validates_2) by concrete_reachable.
  split; [exact Hr|]. split; [reflexivity|].
  apply (stale_only_for_other_role toySigner registry_1_validates_2 Voting 2 Hr).
  reflexivity.
Defined.

(** C3.  After a successful authorization of a candidate [C] by an account
    [I] for a role, the resolvers of that role should map [C] to [I] and [I]
    to [C].  The code breaks this at the candidate [address0]: [authorize]
    compares the recovered signer with the candidate and has no case for a
    recovery that finds no signer, so a signature that signs nothing, from
    which the double recovers [address0], is accepted for the candidate
    [address0]; the slot then reads back as the account itself, not as the
    candidate. *)
Lemma zero_candidate_breaks_round_trip :
  reachable toySigner registry_1 /\
  authorizeDelegate toySigner 1 Voting address0 0 0 0 registry_1
  = Ok (tt, authorized Voting 1 address0 registry_1, [VoteSignerAuthorized 1 address0]) /\
  delegateOf Voting (authorized Voting 1 address0 registry_1) 1 = Ok 1 /\
  delegateOf Voting (authorized Voting 1 address0 registry_1) 1 <> Ok address0.
Proof.
  split; [concrete_reachable|]. repeat split. discriminate.
Qed.

Lemma authorize_round_trip_witness :
  reachable toySigner registry_1 /\
  2 <> address0 /\
  authorizeDelegate toySigner 1 Voting 2 27 2 1 registry_1
  = Ok (tt, authorized Voting 1 2 registry_1, [VoteSignerAuthorized 1 2]) /\
  identityOf Voting (authorized Voting 1 2 registry_1) 2 = Ok 1 /\
  delegateOf Voting (authorized Voting 1 2 registry_1) 1 = Ok 2.
Proof.
  assert (Hr : reachable toySigner registry_1) by concrete_reachable.
  assert (Hne : 2 <> address0) by discriminate.
  assert (Hok : authorizeDelegate toySigner 1 Voting 2 27 2 1 registry_1
                = Ok (tt, authorized Voting 1 2 registry_1, [VoteSignerAuthorized 1 2]))
    by reflexivity.
  split; [exact Hr|]. split; [exact Hne|]. split; [exact Hok|].
  exact (authorize_round_trip toySigner _ _ _ _ _ _ _ _ _ Hr Hne Hok).
Defined.

Lemma claimed_candidate_rejected_witness :
  reachable toySigner registry_13_votes_2 /\
  isAccount registry_13_votes_2 3 = true /\
  authorizedBy registry_13_votes_2 2 <> address0 /\
  authorizeValidationSigner toySigner 3 2 27 2 3 registry_13_votes_2
  = Revert CandidateAlreadyClaimed /\
  transact toySigner 3 (AuthorizeValidationSigner 2 27 2 3) registry_13_votes_2
  = (registry_13_votes_2, Some CandidateAlreadyClaimed).
Proof.
  assert (Hr : reachable toySigner registry_13_votes_2) by concrete_reachable.
  assert (Hc : authorizedBy registry_13_votes_2 2 <> address0) by discriminate.
  split; [exact Hr|]. split; [reflexivity|]. split; [exact Hc|].
  exact (claimed_candidate_rejected toySigner _ 3 Validating 2 27 2 3 Hr eq_refl Hc).
Defined.

Lemma incumbent_resubmission_rejected_witness :
  reachable toySigner registry_1_votes_2 /\
  slot registry_1_votes_2 1 Voting = 2 /\
  2 <> address0 /\
  toySigner 1 27 2 1 = 2 /\
  authorizeVoteSigner toySigner 1 2 27 2 1 registry_1_votes_2
  = Revert CandidateAlreadyClaimed /\
  transact toySigner 1 (AuthorizeVoteSigner 2 27 2 1) registry_1_votes_2
  = (registry_1_votes_2, Some CandidateAlreadyClaimed).
Proof.
  assert (Hr : reachable toySigner registry_1_votes_2) by concrete_reachable.
  assert (Hne : 2 <> address0) by discriminate.
  split; [exact Hr|]. split; [reflexivity|]. split; [exact Hne|].
  split; [reflexivity|].
  exact (incumbent_resubmission_rejected toySigner _ 1 Voting 2 27 2 1 Hr eq_refl Hne).
Defined.

Lemma release_on_replace_witness :
  reachable toySigner registry_13_votes_2 /\
  slot registry_13_votes_2 1 Voting = 2 /\
  2 <> address0 /\
  authorizeDelegate toySigner 1 Voting 4 27 4 1 registry_13_votes_2
  = Ok (tt, authorized Voting 1 4 registry_13_votes_2, [VoteSignerAuthorized 1 4]) /\
  authorizedBy (authorized Voting 1 4 registry_13_votes_2) 2 = address0 /\
  createAccount 2 (authorized Voting 1 4 registry_13_votes_2)
  = Ok (true, set_account 2 (with_exists true) (authorized Voting 1 4 registry_13_votes_2), []) /\
  authorizeDelegate toySigner 3 Attesting 2 27 2 3 (authorized Voting 1 4 registry_13_votes_2)
  = Ok (tt, authorized Attesting 3 2 (authorized Voting 1 4 registry_13_votes_2),
        [AttestationSignerAuthorized 3 2]).
Proof.
  assert (Hr : reachable toySigner registry_13_votes_2) by concrete_reachable.
  assert (Hne : 2 <> address0) by discriminate.
  assert (Hok : authorizeDelegate toySigner 1 Voting 4 27 4 1 registry_13_votes_2
                = Ok (tt, authorized Voting 1 4 registry_13_votes_2,
                      [VoteSignerAuthorized 1 4])) by reflexivity.
  split; [exact Hr|]. split; [reflexivity|]. split; [exact Hne|].
  split; [exact Hok|].
  destruct (release_on_replace toySigner _ _ 1 Voting 2 4 27 4 1 _ Hr eq_refl Hne Hok)
    as (H1 & H2 & H3).
  split; [exact H1|]. split; [exact H2|].
  exact (H3 3 Attesting 27 2 3 eq_refl eq_refl).
Defined.

Lemma authorize_frame_witness :
  authorizeDelegate toySigner 1 Voting 4 27 4 1 registry_1_votes_2
  = Ok (tt, authorized Voting 1 4 registry_1_votes_2, [VoteSignerAuthorized 1 4]) /\
  slot (authorized Voting 1 4 registry_1_votes_2) 1 Voting = 4 /\
  authorizedBy (authorized Voting 1 4 registry_1_votes_2) 4 = 1 /\
  authorizedBy (authorized Voting 1 4 registry_1_votes_2) 2 = address0 /\
  slot (authorized Voting 1 4 registry_1_votes_2) 1 Attesting
  = slot registry_1_votes_2 1 Attesting.
Proof.
  assert (Hok : authorizeDelegate toySigner 1 Voting 4 27 4 1 registry_1_votes_2
                = Ok (tt, authorized Voting 1 4 registry_1_votes_2,
                      [VoteSignerAuthorized 1 4])) by reflexivity.
  split; [exact Hok|].
  destruct (authorize_frame toySigner _ _ 1 Voting 4 27 4 1 _ Hok)
    as (H1 & H2 & H3 & _ & _ & H6 & _).
  split; [exact H1|]. split; [exact H2|].
  split; [apply H3; discriminate | apply H6; discriminate].
Defined.

Lemma delegate_self_default_witness :
  isAccount registry_1 1 = true /\
  slot registry_1 1 Attesting = address0 /\
  delegateOf Attesting registry_1 1 = Ok 1 /\
  isAccount registry_1 5 = false /\
  delegateOf Attesting registry_1 5 = Revert UnknownIdentity.
Proof.
  split; [reflexivity|]. split; [reflexivity|].
  split; [exact (proj1 (delegate_self_default registry_1 Attesting 1) eq_refl eq_refl)|].
  split; [reflexivity|].
  exact (proj2 (delegate_self_default registry_1 Attesting 5) eq_refl).
Defined.

(** C8, as stated, fails: the setter of the data encryption key has a
    failure condition of its own and turns down the empty key. *)
Lemma short_key_rejected :
  setAccountDataEncryptionKey 1 [] genesis = Revert KeyTooShort /\
  transact toySigner 1 (SetAccountDataEncryptionKey []) genesis
  = (genesis, Some KeyTooShort).
Proof. split; reflexivity. Qed.

Lemma profile_setters_witness :
  (33 <= List.length (repeat x02 33))%nat /\
  (exists st', setAccountDataEncryptionKey 1 (repeat x02 33) registry_1
               = Ok (tt, st', [AccountDataEncryptionKeySet 1 (repeat x02 33)]) /\
               getDataEncryptionKey st' 1 = repeat x02 33) /\
  (List.length (repeat x02 32) < 33)%nat /\
  setAccountDataEncryptionKey 1 (repeat x02 32) registry_1 = Revert KeyTooShort.
Proof.
  assert (Hlong : (33 <= List.length (repeat x02 33))%nat) by (cbn; lia).
  assert (Hshort : (List.length (repeat x02 32) < 33)%nat) by (cbn; lia).
  destruct (profile_setters registry_1 1) as (_ & _ & H3 & H4).
  split; [exact Hlong|]. split; [exact (H3 _ Hlong)|].
  split; [exact Hshort|]. exact (H4 _ Hshort).
Defined.

(** ** The scenarios of the specification *)

Example scenario_create_twice :
  transact toySigner 1 CreateAccount genesis = (registry_1, None) /\
  transact toySigner 1 CreateAccount registry_1 = (registry_1, Some AlreadyIdentity).
Proof. split; reflexivity. Qed.

Example scenario_authorize_vote_signer :
  getVoteSignerFromAccount registry_1_votes_2 1 = Ok 2 /\
  getAccountFromVoteSigner registry_1_votes_2 2 = Ok 1.
Proof. split; reflexivity. Qed.

Example scenario_signature_over_other_address :
  transact toySigner 1 (AuthorizeVoteSigner 2 27 2 9) registry_1
  = (registry_1, Some InvalidSignature).
Proof. reflexivity. Qed.

Example scenario_replace_vote_signer :
  let st := run toySigner [ (1, AuthorizeVoteSigner 4 27 4 1) ] registry_1_votes_2 in
  getVoteSignerFromAccount st 1 = Ok 4 /\
  getAccountFromVoteSigner st 4 = Ok 1 /\
  getAccountFromVoteSigner st 2 = Revert UnknownIdentity /\
  snd (transact toySigner 2 CreateAccount st) = None.
Proof. repeat split. Qed.

Example scenario_claimed_signer_cannot_register :
  transact toySigner 2 CreateAccount registry_1_votes_2
  = (registry_1_votes_2, Some AlreadyDelegate).
Proof. reflexivity. Qed.

(** ** The attestation entry point and the guard *)




(** * Further properties of the registry *)

Section RegistryLifecycle.

Variable getSignerOfAddress : address -> N -> N -> N -> address.

Lemma effect_isAccount_mono (sender : address) (st st' : State) (a : address) :
  effect sender st st' -> isAccount st a = true -> isAccount st' a = true.
Proof.
  induction 1 as [st|st Hn Hab|st f Hf Hs|st R C Hg HI HC Hab|st st1 st2 H1 IH1 H2 IH2];
    intros Ha; auto.
  - unfold isAccount, set_account, upd in *; cbn.
    now destruct (N.eqb_spec a sender).
  - now rewrite isAccount_set_account.
  - now rewrite isAccount_authorized.
Qed.

Lemma run_app (txs1 txs2 : list (address * Call)) (st : State) :
  run getSignerOfAddress (txs1 ++ txs2) st
  = run getSignerOfAddress txs2 (run getSignerOfAddress txs1 st).
Proof. unfold run. apply fold_left_app. Qed.

(** X1.  Registration is permanent: whatever transactions follow, by
    whatever senders, an address that is an account stays one.  No entry
    point resets [exists]. *)
Theorem account_permanent (txs : list (address * Call)) (st : State) (a : address) :
  isAccount st a = true ->
  isAccount (run getSignerOfAddress txs st) a = true.
Proof.
  unfold run. revert st.
  induction txs as [|[sender c] txs IH]; intros st Ha; [exact Ha|].
  cbn [fold_left]. apply IH.
  eapply effect_isAccount_mono; [apply exec_effect | exact Ha].
Qed.

(** X2.  An address that has registered as an account at some point of a
    history of the registry is never a claimed signer afterwards, and no
    later call authorizing it as a signer, by any sender for any role and
    with any signature, succeeds. *)
Theorem account_never_signer (txs1 txs2 : list (address * Call)) (a : address) :
  isAccount (run getSignerOfAddress txs1 genesis) a = true ->
  isAuthorized (run getSignerOfAddress (txs1 ++ txs2) genesis) a = false /\
  forall I R v r s st' evs,
    authorizeDelegate getSignerOfAddress I R a v r s
                      (run getSignerOfAddress (txs1 ++ txs2) genesis)
    <> Ok (tt, st', evs).
Proof.
  intros Ha.
  assert (Ha' : isAccount (run getSignerOfAddress (txs1 ++ txs2) genesis) a = true)
    by (rewrite run_app; now apply account_permanent).
  split.
  - apply (run_disjoint getSignerOfAddress (txs1 ++ txs2) genesis); [|exact Ha'].
    intros x Hx. discriminate Hx.
  - intros I R v r s st' evs Hok.
    apply authorizeDelegate_ok in Hok.
    destruct Hok as (_ & _ & HC & _). congruence.
Qed.

(** X10.  An address registers at most once: after a successful
    [createAccount] every later [createAccount] by the same sender reverts
    at [isNotAccount(msg.sender)], whatever happened in between. *)
Theorem createAccount_once (st st' : State) (sender : address) (b : bool)
        (evs : list Event) (txs : list (address * Call)) :
  createAccount sender st = Ok (b, st', evs) ->
  b = true /\ evs = [] /\ isAccount st' sender = true /\
  createAccount sender (run getSignerOfAddress txs st') = Revert AlreadyIdentity.
Proof.
  unfold createAccount, storage, require_all, bind, read, write, require, ret.
  unfold isNotAccount, isNotAuthorized.
  destruct (account_exists (accounts st sender)) eqn:E; cbn -[N.eqb];
    [discriminate|].
  destruct (authorizedBy st sender =? address0); cbn -[N.eqb]; [|discriminate].
  intros H. inversion H; subst; clear H.
  assert (Hacc : isAccount (set_account sender (with_exists true) st) sender = true).
  { unfold isAccount, set_account; cbn. now rewrite upd_eq. }
  repeat split; trivial.
  pose proof (account_permanent txs _ sender Hacc) as Hp.
  unfold isAccount in Hp. now rewrite Hp.
Qed.

(** X11.  A successful [createAccount] writes the [exists] flag of the
    sender and nothing else: the signer slots and profile fields of every
    address, the sender included, [authorizedBy] and the other records are as
    before.  A profile written before registering is therefore kept. *)
Theorem createAccount_frame (st st' : State) (sender : address) (b : bool)
        (evs : list Event) :
  createAccount sender st = Ok (b, st', evs) ->
  (forall a, authorizedBy st' a = authorizedBy st a) /\
  (forall a, a <> sender -> accounts st' a = accounts st a) /\
  (forall a, signers (accounts st' a) = signers (accounts st a)) /\
  (forall a, getWalletAddress st' a = getWalletAddress st a) /\
  (forall a, getDataEncryptionKey st' a = getDataEncryptionKey st a) /\
  (forall a, getMetadataURL st' a = getMetadataURL st a) /\
  guard_entered st' = guard_entered st.
Proof.
  unfold createAccount, storage, require_all, bind, read, write, require, ret.
  destruct (isNotAccount st sender); cbn -[N.eqb]; [|discriminate].
  destruct (isNotAuthorized st sender); cbn -[N.eqb]; [|discriminate].
  intros H. inversion H; subst; clear H.
  unfold getWalletAddress, getDataEncryptionKey, getMetadataURL, set_account; cbn.
  repeat split; trivial; intros a; try (intros Hne; now rewrite upd_neq);
    unfold upd; now destruct (N.eqb_spec a sender); subst.
Qed.

End RegistryLifecycle.

Section RegistryResolution.

Variable getSignerOfAddress : address -> N -> N -> N -> address.

Lemma account_nonzero (st : State) (I : address) :
  consistent st -> isAccount st I = true -> I <> address0.
Proof.
  intros Hc HI ->. rewrite (zero_unregistered st Hc) in HI. discriminate.
Qed.

(** X3.  In a reachable registry a signer held in a slot belongs to that
    slot alone: it is claimed in [authorizedBy] by the account of the slot,
    that account is registered, the signer itself is not an account, and no
    other slot, of this or of any other account, holds it. *)
Theorem signer_exclusive (st : State) (I : address) (R : Role) (X : address) :
  reachable getSignerOfAddress st ->
  slot st I R = X ->
  X <> address0 ->
  authorizedBy st X = I /\
  isAccount st I = true /\
  isAccount st X = false /\
  forall J R', slot st J R' = X -> J = I /\ R' = R.
Proof.
  intros Hr HS HX. apply reachable_consistent in Hr. subst X.
  pose proof (slot_claimed st Hr I R HX) as Hcl.
  pose proof (slot_registered st Hr I R HX) as HI.
  split; [exact Hcl|]. split; [exact HI|]. split.
  - destruct (isAccount st (slot st I R)) eqn:E; [|reflexivity].
    rewrite (accounts_unclaimed st Hr _ E) in Hcl.
    now elim (account_nonzero st I Hr HI).
  - intros J R' HJ.
    assert (HJ0 : slot st J R' <> address0) by now rewrite HJ.
    pose proof (slot_claimed st Hr J R' HJ0) as HclJ.
    rewrite HJ, Hcl in HclJ. subst J. split; [reflexivity|].
    symmetry. apply (slot_injective st Hr I R R' HX). now symmetry.
Qed.

(** X4.  In a reachable registry every non-zero address claimed in
    [authorizedBy] is claimed by a registered account that holds it in
    exactly one of its three slots. *)
Theorem claim_has_one_slot (st : State) (X : address) :
  reachable getSignerOfAddress st ->
  X <> address0 ->
  authorizedBy st X <> address0 ->
  isAccount st (authorizedBy st X) = true /\
  exists R, slot st (authorizedBy st X) R = X /\
            forall R', slot st (authorizedBy st X) R' = X -> R' = R.
Proof.
  intros Hr HX Hcl. apply reachable_consistent in Hr.
  destruct (claim_held st Hr X Hcl) as [HA [R HR]].
  split; [exact HA|]. exists R. split; [exact HR|].
  intros R' HR'. symmetry.
  apply (slot_injective st Hr (authorizedBy st X) R R'); congruence.
Qed.

(** X6.  In a reachable registry every account resolves to itself through
    the signer-to-account resolver of every role, whether or not it has
    authorized a signer for that role. *)
Theorem account_resolves_to_itself (st : State) (R : Role) (I : address) :
  reachable getSignerOfAddress st ->
  isAccount st I = true ->
  identityOf R st I = Ok I.
Proof.
  intros Hr HI. apply reachable_consistent in Hr.
  rewrite identityOf_eq, (accounts_unclaimed st Hr I HI), HI. reflexivity.
Qed.

(** X5.  In a reachable registry the two resolvers of a role compose to the
    identity on accounts: the signer that the account-to-signer resolver
    returns for an account is mapped back to that account by the
    signer-to-account resolver. *)
Theorem resolvers_round_trip (st : State) (R : Role) (I : address) :
  reachable getSignerOfAddress st ->
  isAccount st I = true ->
  exists X, delegateOf R st I = Ok X /\ identityOf R st X = Ok I.
Proof.
  intros Hr HI. pose proof (reachable_consistent _ st Hr) as Hc.
  rewrite delegateOf_eq, HI.
  destruct (N.eqb_spec (slot st I R) address0) as [E|Hne].
  - exists I. split; [reflexivity|]. now apply account_resolves_to_itself.
  - exists (slot st I R). split; [reflexivity|].
    rewrite identityOf_eq, (slot_claimed st Hc I R Hne).
    destruct (N.eqb_spec I address0) as [E0|_];
      [now elim (account_nonzero st I Hc HI)|].
    cbn. now rewrite N.eqb_refl.
Qed.

(** X7.  In a reachable registry a signer-to-account resolver asked about
    an address other than the zero address only ever returns a registered
    account, and it returns it either for the account's own address or for
    the signer held in the account's slot of the queried role. *)
Theorem resolver_sound (st : State) (R : Role) (X I : address) :
  reachable getSignerOfAddress st ->
  X <> address0 ->
  identityOf R st X = Ok I ->
  isAccount st I = true /\
  ((X = I /\ authorizedBy st X = address0) \/
   (slot st I R = X /\ authorizedBy st X = I)).
Proof.
  intros Hr _ Hok. apply reachable_consistent in Hr.
  rewrite identityOf_eq in Hok.
  destruct (N.eqb_spec (authorizedBy st X) address0) as [E|Hne]; cbn in Hok.
  - destruct (isAccount st X) eqn:EX; [|discriminate].
    inversion Hok; subst. auto.
  - destruct (N.eqb_spec (slot st (authorizedBy st X) R) X) as [ES|_];
      [|discriminate].
    inversion Hok; subst. split; [|now right].
    now destruct (claim_held st Hr X Hne).
Qed.

(** X8.  In a reachable registry, once an account has replaced the signer
    [C1] of one of its slots by another candidate, [C1] no longer resolves to
    any account, for any role. *)
Theorem replaced_signer_unresolved (st st' : State) (I : address) (R : Role)
        (C1 C2 : address) (v r s : N) (evs : list Event) :
  reachable getSignerOfAddress st ->
  slot st I R = C1 ->
  C1 <> address0 ->
  authorizeDelegate getSignerOfAddress I R C2 v r s st = Ok (tt, st', evs) ->
  forall R', identityOf R' st' C1 = Revert UnknownIdentity.
Proof.
  intros Hr HS HC1 Hok R'.
  destruct (signer_exclusive st I R C1 Hr HS HC1) as (Hcl & HI & HnA & _).
  pose proof (reachable_consistent _ st Hr) as Hc.
  apply authorizeDelegate_ok in Hok.
  destruct Hok as (_ & _ & _ & Hab2 & _ & ->).
  assert (Hneq : C1 <> C2).
  { intros E. rewrite <- E, Hcl in Hab2.
    now elim (account_nonzero st I Hc HI). }
  rewrite identityOf_eq, authorizedBy_authorized, isAccount_authorized, HS.
  destruct (N.eqb_spec C1 C2); [contradiction|].
  now rewrite N.eqb_refl, HnA.
Qed.

(** X9.  The exact condition under which an authorization succeeds, for the
    three entry points alike: the guard is free wherever the entry point
    carries one, the sender is an account, the candidate is neither an
    account nor claimed, and the signature recovers to the candidate. *)
Theorem authorize_succeeds_iff (st : State) (I : address) (R : Role) (C : address)
        (v r s : N) :
  (exists st' evs, authorizeDelegate getSignerOfAddress I R C v r s st
                   = Ok (tt, st', evs))
  <->
  ((guarded R = true -> guard_entered st = false) /\
   isAccount st I = true /\ isAccount st C = false /\
   isAuthorized st C = false /\ getSignerOfAddress I v r s = C).
Proof.
  unfold isAuthorized. split.
  - intros (st' & evs & Hok). apply authorizeDelegate_ok in Hok.
    destruct Hok as (Hg & HI & HC & Hab & Hs & _).
    repeat split; trivial. now rewrite Hab.
  - intros (Hg & HI & HC & Hab & Hs).
    exists (authorized R I C st), [authorizedEvent R I C].
    rewrite authorizeDelegate_eq, HI, HC, Hs, N.eqb_refl.
    destruct (N.eqb_spec (authorizedBy st C) address0); [|discriminate].
    destruct (guarded R); [now rewrite Hg|reflexivity].
Qed.

(** X14.  In a reachable registry an address that is claimed as a signer
    cannot register: its [createAccount] passes [isNotAccount] and reverts
    at [isNotAuthorized(msg.sender)], and the transaction changes nothing. *)
Theorem claimed_signer_cannot_register (st : State) (a : address) :
  reachable getSignerOfAddress st ->
  isAuthorized st a = true ->
  createAccount a st = Revert AlreadyDelegate /\
  transact getSignerOfAddress a CreateAccount st = (st, Some AlreadyDelegate).
Proof.
  intros Hr Ha. apply reachable_consistent in Hr.
  assert (E : createAccount a st = Revert AlreadyDelegate).
  { unfold isAuthorized in Ha.
    unfold createAccount, storage, require_all, bind, read, write, require, ret.
    unfold isNotAccount, isNotAuthorized.
    destruct (account_exists (accounts st a)) eqn:EA.
    - rewrite (accounts_unclaimed st Hr a EA) in Ha. discriminate.
    - cbn -[N.eqb]. now destruct (authorizedBy st a =? address0). }
  split; [exact E|]. unfold transact, dispatch, bind. now rewrite E.
Qed.

(** ** Profile writes *)

(** X12.  A transaction that calls a profile setter, whether it succeeds or
    reverts, leaves registration and delegation as they are: the accounts,
    the signer slots, [authorizedBy] and hence the answers of all resolvers
    are unchanged, and so is the record of every address but the sender. *)
Theorem profile_calls_keep_delegation (st : State) (sender : address) (c : Call) :
  is_profile_call c = true ->
  let st' := exec getSignerOfAddress st (sender, c) in
  (forall a, isAccount st' a = isAccount st a) /\
  (forall a, authorizedBy st' a = authorizedBy st a) /\
  (forall a R, slot st' a R = slot st a R) /\
  (forall a R, identityOf R st' a = identityOf R st a) /\
  (forall a R, delegateOf R st' a = delegateOf R st a) /\
  (forall a, a <> sender -> accounts st' a = accounts st a).
Proof.
  intros Hp st'.
  assert (H : (forall a, isAccount st' a = isAccount st a) /\
              (forall a, authorizedBy st' a = authorizedBy st a) /\
              (forall a R, slot st' a R = slot st a R) /\
              (forall a, a <> sender -> accounts st' a = accounts st a)).
  { subst st'. unfold exec, transact; cbn [fst snd].
    destruct c as [|key wallet|C v r s|C v r s|C v r s|url|key|wallet];
      try discriminate Hp; unfold dispatch; unfold_tx; cbv beta iota;
      try destruct (33 <=? N.of_nat (List.length key)); cbv beta iota;
      cbn [fst snd]; (split; [|split; [|split]]);
      try (intros a; rewrite ?isAccount_set_account by reflexivity; reflexivity);
      try (intros a R; rewrite ?slot_set_account by reflexivity; reflexivity);
      intros a Hne; cbn; rewrite ?upd_neq by assumption; reflexivity. }
  destruct H as (H1 & H2 & H3 & H4).
  repeat split; trivial; intros a R.
  - now rewrite !identityOf_eq, H2, H3, H1.
  - now rewrite !delegateOf_eq, H1, H3.
Qed.

(** X13.  [setAccount] writes both fields or none.  With a key of at least
    33 bytes it stores the key and the wallet address, leaves the metadata
    URL alone and emits the two events in the order of the writes; with a
    shorter key it reverts before the wallet address is written. *)
Theorem setAccount_all_or_nothing (st : State) (sender : address)
        (key : list byte) (wallet : address) :
  ((33 <= List.length key)%nat ->
   exists st', setAccount sender key wallet st
               = Ok (tt, st', [AccountDataEncryptionKeySet sender key;
                               AccountWalletAddressSet sender wallet]) /\
               getDataEncryptionKey st' sender = key /\
               getWalletAddress st' sender = wallet /\
               getMetadataURL st' sender = getMetadataURL st sender) /\
  ((List.length key < 33)%nat ->
   setAccount sender key wallet st = Revert KeyTooShort /\
   transact getSignerOfAddress sender (SetAccount key wallet) st
   = (st, Some KeyTooShort)).
Proof.
  split; intros Hlen.
  - unfold_tx.
    destruct (N.leb_spec 33 (N.of_nat (List.length key))) as [_|Hlt]; [|lia].
    eexists. split; [reflexivity|].
    unfold getDataEncryptionKey, getWalletAddress, getMetadataURL; cbn.
    now rewrite !upd_eq.
  - unfold transact, dispatch. unfold_tx.
    destruct (N.leb_spec 33 (N.of_nat (List.length key))) as [Hle|_]; [lia|].
    split; reflexivity.
Qed.

End RegistryResolution.

(** * Properties of [reorderMember] *)

Lemma indexOf_from_absent (x : Address) (l : list Address) (i : Z) :
  ~ In x l -> indexOf_from x l i = (-1)%Z.
Proof.
  revert i. induction l as [|y l IH]; intros i Hn; [reflexivity|].
  cbn. destruct (String.eqb_spec y x) as [->|_].
  - elim Hn. now left.
  - apply IH. intros H. apply Hn. now right.
Qed.

Lemma indexOf_from_present (x : Address) (l : list Address) (i : Z) :
  In x l ->
  exists l1 l2, l = l1 ++ x :: l2 /\ ~ In x l1 /\
                indexOf_from x l i = (i + Z.of_nat (List.length l1))%Z.
Proof.
  revert i. induction l as [|y l IH]; intros i Hin; [now elim Hin|].
  cbn. destruct (String.eqb_spec y x) as [->|Hne].
  - exists [], l. cbn. repeat split; auto. lia.
  - destruct Hin as [E|Hin]; [contradiction|].
    destruct (IH (i + 1)%Z Hin) as (l1 & l2 & -> & Hn & E).
    exists (y :: l1), l2. cbn [app List.length]. repeat split.
    + intros [H|H]; [contradiction|now apply Hn].
    + rewrite E. lia.
Qed.

(** The first occurrence found by [indexOf], or its absence. *)
Lemma indexOf_cases (x : Address) (l : list Address) :
  (~ In x l /\ indexOf x l = (-1)%Z) \/
  (exists l1 l2, l = l1 ++ x :: l2 /\ ~ In x l1 /\
                 indexOf x l = Z.of_nat (List.length l1)).
Proof.
  unfold indexOf. destruct (in_dec string_dec x l) as [Hin|Hn].
  - right. destruct (indexOf_from_present x l 0%Z Hin) as (l1 & l2 & E & Hn & Hi).
    exists l1, l2. repeat split; trivial.
  - left. split; [exact Hn|]. now apply indexOf_from_absent.
Qed.

Lemma splice_remove_at {A : Type} (l1 l2 : list A) (x : A) :
  splice (List.length l1) 1 [] (l1 ++ x :: l2) = l1 ++ l2.
Proof.
  unfold splice. cbn [app].
  rewrite firstn_app, firstn_all, Nat.sub_diag. cbn [firstn].
  rewrite skipn_app, skipn_all2 by lia.
  replace (List.length l1 + 1 - List.length l1)%nat with 1%nat by lia.
  cbn. now rewrite app_nil_r.
Qed.

Lemma nth_error_removed {A : Type} (l1 l2 : list A) (x : A) (k : nat) :
  nth_error (l1 ++ l2) k
  = nth_error (l1 ++ x :: l2) (if (k <? List.length l1)%nat then k else S k).
Proof.
  destruct (Nat.ltb_spec k (List.length l1)) as [Hlt|Hge].
  - now rewrite !nth_error_app1.
  - rewrite !nth_error_app2 by lia.
    replace (S k - List.length l1)%nat with (S (k - List.length l1)) by lia.
    reflexivity.
Qed.

Lemma nth_error_inserted {A : Type} (L : list A) (x : A) (n k : nat) :
  (n <= List.length L)%nat ->
  nth_error (splice n 0 [x] L) k
  = if (k <? n)%nat then nth_error L k
    else if (k =? n)%nat then Some x else nth_error L (k - 1).
Proof.
  intros Hn. unfold splice. rewrite Nat.add_0_r. cbn [app].
  assert (Hf : List.length (firstn n L) = n) by (rewrite length_firstn; lia).
  destruct (Nat.ltb_spec k n) as [Hlt|Hge].
  - rewrite nth_error_app1 by lia. rewrite nth_error_firstn.
    now destruct (Nat.ltb_spec k n); [|lia].
  - rewrite nth_error_app2 by lia. rewrite Hf.
    destruct (Nat.eqb_spec k n) as [->|Hne].
    + now rewrite Nat.sub_diag.
    + replace (k - n)%nat with (S (k - 1 - n)) by lia. cbn.
      rewrite nth_error_skipn. f_equal. lia.
Qed.

Lemma length_inserted {A : Type} (L : list A) (x : A) (n : nat) :
  List.length (splice n 0 [x] L) = S (List.length L).
Proof.
  unfold splice. rewrite Nat.add_0_r, !length_app, length_firstn, length_skipn.
  cbn [List.length]. lia.
Qed.

Lemma clampStart_le (t : Z) (len : nat) : (clampStart t len <= len)%nat.
Proof. unfold clampStart. destruct (Z.ltb_spec t 0); lia. Qed.

Lemma actualStart_le (x : JSNumber) (len : nat) : (actualStart x len <= len)%nat.
Proof. destruct x; cbn; auto using clampStart_le; lia. Qed.

Lemma actualStart_int (z : Z) (len : nat) :
  (0 <= z <= Z.of_nat len)%Z -> actualStart (JSInt z) len = Z.to_nat z.
Proof.
  intros H. cbn. unfold clampStart. destruct (Z.ltb_spec z 0); lia.
Qed.

Section ValidatorsWrapperFacts.

Variable NULL_ADDRESS : Address.

(** What a successful [reorderMember] has checked, with the decomposition of
    the member list around the first occurrence of the validator. *)
Lemma reorderMember_inl (members : list Address) (groupAddr validator : Address)
      (newIndex : JSNumber) (call : ReorderCall) :
  reorderMember NULL_ADDRESS members groupAddr validator newIndex = inl call ->
  exists l1 l2,
    members = l1 ++ validator :: l2 /\ ~ In validator l1 /\
    indexOf validator members = Z.of_nat (List.length l1) /\
    js_lt newIndex 0 = false /\
    js_ge newIndex (Z.of_nat (List.length members)) = false /\
    js_eq (Z.of_nat (List.length l1)) newIndex = false /\
    reorderedMembers members validator (indexOf validator members) newIndex
    = splice (actualStart newIndex (List.length (l1 ++ l2))) 0 [validator] (l1 ++ l2) /\
    call = mkReorderCall validator
             (if js_eq (Z.of_nat (List.length members) - 1)%Z newIndex
              then Some NULL_ADDRESS
              else itemAt (splice (actualStart newIndex (List.length (l1 ++ l2))) 0
                                  [validator] (l1 ++ l2))
                          (js_plusOne newIndex))
             (if js_eq 0%Z newIndex
              then Some NULL_ADDRESS
              else itemAt (splice (actualStart newIndex (List.length (l1 ++ l2))) 0
                                  [validator] (l1 ++ l2))
                          (js_minusOne newIndex))
             groupAddr.
Proof.
  unfold reorderMember.
  destruct (js_lt newIndex 0) eqn:H0; [discriminate|].
  destruct (js_ge newIndex (Z.of_nat (List.length members))) eqn:Hlen;
    [discriminate|].
  cbn [orb].
  destruct (indexOf_cases validator members)
    as [[_ E]|(l1 & l2 & Hm & Hn & E)]; rewrite E.
  - discriminate.
  - destruct (Z.ltb_spec (Z.of_nat (List.length l1)) 0) as [|_]; [lia|].
    destruct (js_eq (Z.of_nat (List.length l1)) newIndex) eqn:Hne;
      [discriminate|].
    intros H. exists l1, l2.
    assert (Hre : reorderedMembers members validator (Z.of_nat (List.length l1)) newIndex
                  = splice (actualStart newIndex (List.length (l1 ++ l2))) 0
                           [validator] (l1 ++ l2)).
    { unfold reorderedMembers. rewrite Nat2Z.id. subst members.
      now rewrite splice_remove_at. }
    repeat split; trivial.
    rewrite Hre in H. inversion H. f_equal.
    replace (Z.of_nat (List.length
               (splice (actualStart newIndex (List.length (l1 ++ l2))) 0
                       [validator] (l1 ++ l2))))
      with (Z.of_nat (List.length members)); [reflexivity|].
    subst members. rewrite length_inserted, !length_app. cbn [List.length]. lia.
Qed.

(** Reading the reordered list in terms of the original one. *)
Lemma item_reordered (l1 l2 : list Address) (x : Address) (n : nat) (i : Z) :
  (n <= List.length (l1 ++ l2))%nat ->
  (0 <= i)%Z -> Z.to_nat i <> n ->
  item (splice n 0 [x] (l1 ++ l2)) i
  = item (l1 ++ x :: l2)
         (let k := if (Z.to_nat i <? n)%nat then i else (i - 1)%Z in
          if (k <? Z.of_nat (List.length l1))%Z then k else (k + 1)%Z).
Proof.
  intros Hn Hi Hne. unfold item.
  destruct (Z.ltb_spec i 0) as [|_]; [lia|].
  rewrite nth_error_inserted by assumption.
  destruct (Nat.ltb_spec (Z.to_nat i) n) as [Hlt|Hge]; cbv zeta.
  - rewrite (nth_error_removed l1 l2 x).
    destruct (Nat.ltb_spec (Z.to_nat i) (List.length l1));
      destruct (Z.ltb_spec i (Z.of_nat (List.length l1))); try lia.
    + destruct (Z.ltb_spec i 0); [lia|reflexivity].
    + destruct (Z.ltb_spec (i + 1) 0); [lia|]. f_equal. lia.
  - destruct (Nat.eqb_spec (Z.to_nat i) n) as [|_]; [contradiction|].
    rewrite (nth_error_removed l1 l2 x).
    destruct (Nat.ltb_spec (Z.to_nat i - 1) (List.length l1));
      destruct (Z.ltb_spec (i - 1) (Z.of_nat (List.length l1))); try lia.
    + destruct (Z.ltb_spec (i - 1) 0); [lia|]. f_equal. lia.
    + destruct (Z.ltb_spec (i - 1 + 1) 0); [lia|]. f_equal. lia.
Qed.

(** X15.  [reorderMember] builds a contract call exactly when the new index
    passes the range test (it is neither below zero nor at or beyond the
    length of the member list, as JavaScript compares numbers), the validator
    is a member, and its first position is not strictly equal to the new
    index.  The range test comes first: an index that fails it is turned
    down for the index whether or not the validator is a member, and so is
    every integer index on an empty group. *)
Theorem reorderMember_succeeds_iff (members : list Address)
        (groupAddr validator : Address) (newIndex : JSNumber) :
  ((exists call,
       reorderMember NULL_ADDRESS members groupAddr validator newIndex = inl call)
   <->
   (js_lt newIndex 0 = false /\
    js_ge newIndex (Z.of_nat (List.length members)) = false /\
    In validator members /\
    js_eq (indexOf validator members) newIndex = false)) /\
  (js_lt newIndex 0 = true \/
   js_ge newIndex (Z.of_nat (List.length members)) = true ->
   reorderMember NULL_ADDRESS members groupAddr validator newIndex
   = inr (InvalidIndex newIndex (Z.of_nat (List.length members) - 1)%Z)) /\
  (forall z,
      reorderMember NULL_ADDRESS [] groupAddr validator (JSInt z)
      = inr (InvalidIndex (JSInt z) (-1)%Z)).
Proof.
  split; [split|split].
  - intros [call H].
    destruct (reorderMember_inl _ _ _ _ _ H)
      as (l1 & l2 & Hm & _ & Hi & H0 & Hlen & Hne & _).
    repeat split; trivial.
    + rewrite Hm. apply in_elt.
    + now rewrite Hi.
  - intros (H0 & Hlen & Hin & Hne). unfold reorderMember.
    rewrite H0, Hlen. cbn [orb].
    destruct (indexOf_cases validator members)
      as [[Hn _]|(l1 & l2 & _ & _ & E)]; [contradiction|].
    destruct (Z.ltb_spec (indexOf validator members) 0) as [|_]; [lia|].
    rewrite Hne. eexists. reflexivity.
  - intros H. unfold reorderMember.
    destruct (js_lt newIndex 0); [reflexivity|].
    destruct H as [H|H]; [discriminate|]. now rewrite H.
  - intros z. unfold reorderMember. cbn.
    destruct (Z.ltb_spec z 0); [reflexivity|].
    destruct (Z.geb_spec z 0); [reflexivity|lia].
Qed.

(** X16.  When [reorderMember] succeeds, the two [splice] calls have moved
    the validator and nothing else: the reordered list is a permutation of
    the members of the same length, holds the validator at the position
    where the second [splice] starts, and with that position taken out
    equals the members with the first occurrence of the validator taken out.
    For an integer new index that position is the new index itself; for
    another number it is its truncation, and [0] for [NaN]. *)
Theorem reorderMember_moves_validator (members : list Address)
        (groupAddr validator : Address) (newIndex : JSNumber) (call : ReorderCall) :
  reorderMember NULL_ADDRESS members groupAddr validator newIndex = inl call ->
  let currentIdx := indexOf validator members in
  let members' := reorderedMembers members validator currentIdx newIndex in
  let position := actualStart newIndex (List.length members - 1) in
  Permutation members members' /\
  List.length members' = List.length members /\
  nth_error members' position = Some validator /\
  splice position 1 [] members' = splice (Z.to_nat currentIdx) 1 [] members /\
  (forall z, newIndex = JSInt z -> Z.of_nat position = z) /\
  (forall f p m, newIndex = JSFraction f p m -> Z.of_nat position = f) /\
  (newIndex = JSNaN -> position = 0%nat).
Proof.
  intros H currentIdx members' position. subst currentIdx members' position.
  destruct (reorderMember_inl _ _ _ _ _ H)
    as (l1 & l2 & Hm & _ & Hi & H0 & Hlen & Hne & Hre & _).
  assert (HL : List.length (l1 ++ l2) = (List.length members - 1)%nat).
  { rewrite Hm, !length_app. cbn [List.length]. lia. }
  assert (Hpos : (1 <= List.length members)%nat)
    by (rewrite Hm, length_app; cbn [List.length]; lia).
  rewrite Hre, Hi, Nat2Z.id, HL.
  pose proof (actualStart_le newIndex (List.length members - 1)) as Hle.
  rewrite <- HL in Hle at 2.
  set (n := actualStart newIndex (List.length members - 1)) in *.
  set (L := l1 ++ l2) in *.
  assert (Hf : List.length (firstn n L) = n) by (rewrite length_firstn; lia).
  split; [|split; [|split; [|split; [|split; [|split]]]]].
  - rewrite Hm. unfold splice. rewrite Nat.add_0_r. cbn [app].
    apply Permutation_trans with (validator :: L).
    + apply Permutation_sym, Permutation_middle.
    + rewrite <- (firstn_skipn n L) at 1. apply Permutation_middle.
  - rewrite length_inserted. lia.
  - rewrite nth_error_inserted by assumption.
    destruct (Nat.ltb_spec n n); [lia|]. now rewrite Nat.eqb_refl.
  - rewrite Hm, splice_remove_at. fold L.
    unfold splice at 1. cbn [app]. unfold splice. rewrite Nat.add_0_r. cbn [app].
    rewrite firstn_app, Hf, Nat.sub_diag, firstn_firstn, Nat.min_id.
    cbn [firstn]. rewrite app_nil_r.
    rewrite skipn_app, Hf, skipn_all2 by lia.
    replace (n + 1 - n)%nat with 1%nat by lia. cbn [skipn app].
    apply firstn_skipn.
  - intros z ->. subst n. cbn in H0, Hlen |- *. unfold clampStart.
    destruct (Z.ltb_spec z 0); [discriminate|].
    destruct (Z.geb_spec z (Z.of_nat (List.length members))); [discriminate|].
    lia.
  - intros f p m ->. subst n. cbn in H0, Hlen. cbn [actualStart].
    rewrite H0. unfold clampStart. rewrite H0.
    destruct (Z.geb_spec f (Z.of_nat (List.length members))); [discriminate|].
    lia.
  - intros ->. reflexivity.
Qed.

(** X17.  The neighbours that a successful [reorderMember] passes on for an
    integer new index, read in the member list as it was: moving the
    validator towards the front puts it right before the member that was at
    the new index, moving it towards the back puts it right after that
    member; [NULL_ADDRESS] stands for the missing neighbour at either end. *)
Theorem reorderMember_neighbours (members : list Address)
        (groupAddr validator : Address) (newIndex : Z) (call : ReorderCall) :
  reorderMember NULL_ADDRESS members groupAddr validator (JSInt newIndex) = inl call ->
  let currentIdx := indexOf validator members in
  call_validator call = validator /\
  call_from call = groupAddr /\
  ((newIndex < currentIdx)%Z ->
   call_nextMember call = item members newIndex /\
   call_prevMember call
   = if (newIndex =? 0)%Z then Some NULL_ADDRESS
     else item members (newIndex - 1)%Z) /\
  ((currentIdx < newIndex)%Z ->
   call_prevMember call = item members newIndex /\
   call_nextMember call
   = if (newIndex =? Z.of_nat (List.length members) - 1)%Z
     then Some NULL_ADDRESS else item members (newIndex + 1)%Z).
Proof.
  intros H currentIdx. subst currentIdx.
  destruct (reorderMember_inl _ _ _ _ _ H)
    as (l1 & l2 & Hm & _ & Hi & H0 & Hge & Hne & _ & ->).
  cbn in H0, Hge, Hne.
  destruct (Z.ltb_spec newIndex 0) as [|H0']; [discriminate|].
  destruct (Z.geb_spec newIndex (Z.of_nat (List.length members))) as [|Hge'];
    [discriminate|].
  destruct (Z.eqb_spec (Z.of_nat (List.length l1)) newIndex) as [|Hne'];
    [discriminate|].
  rewrite Hi. cbn [call_validator call_from call_nextMember call_prevMember].
  assert (HL : Z.of_nat (List.length (l1 ++ l2)) = (Z.of_nat (List.length members) - 1)%Z).
  { rewrite Hm, !length_app. cbn [List.length]. lia. }
  rewrite actualStart_int by lia.
  assert (Hlen : (Z.to_nat newIndex <= List.length (l1 ++ l2))%nat) by lia.
  assert (Hc : (Z.of_nat (List.length l1) <= Z.of_nat (List.length members) - 1)%Z).
  { rewrite Hm, length_app. cbn [List.length]. lia. }
  cbn [js_eq js_plusOne js_minusOne itemAt].
  rewrite (Z.eqb_sym (Z.of_nat (List.length members) - 1) newIndex).
  rewrite (Z.eqb_sym 0 newIndex).
  split; [reflexivity|]. split; [reflexivity|]. split; intros Hlt.
  - destruct (Z.eqb_spec newIndex (Z.of_nat (List.length members) - 1)); [lia|].
    split.
    + rewrite item_reordered by lia. cbv zeta.
      destruct (Nat.ltb_spec (Z.to_nat (newIndex + 1)) (Z.to_nat newIndex)); [lia|].
      destruct (Z.ltb_spec (newIndex + 1 - 1) (Z.of_nat (List.length l1))); [|lia].
      rewrite Hm. f_equal. lia.
    + destruct (Z.eqb_spec newIndex 0); [reflexivity|].
      rewrite item_reordered by lia. cbv zeta.
      destruct (Nat.ltb_spec (Z.to_nat (newIndex - 1)) (Z.to_nat newIndex)); [|lia].
      destruct (Z.ltb_spec (newIndex - 1) (Z.of_nat (List.length l1))); [|lia].
      now rewrite Hm.
  - destruct (Z.eqb_spec newIndex 0); [lia|]. split.
    + rewrite item_reordered by lia. cbv zeta.
      destruct (Nat.ltb_spec (Z.to_nat (newIndex - 1)) (Z.to_nat newIndex)); [|lia].
      destruct (Z.ltb_spec (newIndex - 1) (Z.of_nat (List.length l1))); [lia|].
      rewrite Hm. f_equal. lia.
    + destruct (Z.eqb_spec newIndex (Z.of_nat (List.length members) - 1));
        [reflexivity|].
      rewrite item_reordered by lia. cbv zeta.
      destruct (Nat.ltb_spec (Z.to_nat (newIndex + 1)) (Z.to_nat newIndex)); [lia|].
      destruct (Z.ltb_spec (newIndex + 1 - 1) (Z.of_nat (List.length l1))); [lia|].
      rewrite Hm. f_equal. lia.
Qed.

(** X18.  For an integer new index a successful [reorderMember] never
    passes [undefined] as a neighbour: both array reads fall inside the
    reordered list.  (For [NaN] or a fraction the reads can miss the list.) *)
Theorem reorderMember_neighbours_defined (members : list Address)
        (groupAddr validator : Address) (newIndex : Z) (call : ReorderCall) :
  reorderMember NULL_ADDRESS members groupAddr validator (JSInt newIndex) = inl call ->
  exists next prev,
    call = mkReorderCall validator (Some next) (Some prev) groupAddr.
Proof.
  intros H.
  destruct (reorderMember_inl _ _ _ _ _ H)
    as (l1 & l2 & Hm & _ & Hi & H0 & Hge & Hne & _ & ->).
  cbn in H0, Hge.
  destruct (Z.ltb_spec newIndex 0) as [|H0']; [discriminate|].
  destruct (Z.geb_spec newIndex (Z.of_nat (List.length members))) as [|Hge'];
    [discriminate|].
  cbn [js_eq js_plusOne js_minusOne itemAt].
  set (L := splice (actualStart (JSInt newIndex) (List.length (l1 ++ l2))) 0
                   [validator] (l1 ++ l2)).
  assert (HL : List.length L = List.length members).
  { subst L. rewrite length_inserted, Hm, !length_app. cbn [List.length]. lia. }
  assert (Hdef : forall i, (0 <= i < Z.of_nat (List.length members))%Z ->
            exists a, item L i = Some a).
  { intros i Hi'. unfold item. destruct (Z.ltb_spec i 0); [lia|].
    destruct (nth_error L (Z.to_nat i)) as [a|] eqn:E; [now exists a|].
    apply nth_error_None in E. lia. }
  destruct (Z.eqb_spec (Z.of_nat (List.length members) - 1) newIndex) as [El|Hl];
    destruct (Z.eqb_spec 0 newIndex) as [E0|H0''].
  - now exists NULL_ADDRESS, NULL_ADDRESS.
  - destruct (Hdef (newIndex - 1)%Z) as [p Hp]; [lia|]. rewrite Hp.
    now exists NULL_ADDRESS, p.
  - destruct (Hdef (newIndex + 1)%Z) as [n Hn]; [lia|]. rewrite Hn.
    now exists n, NULL_ADDRESS.
  - destruct (Hdef (newIndex + 1)%Z) as [n Hn]; [lia|].
    destruct (Hdef (newIndex - 1)%Z) as [p Hp]; [lia|]. rewrite Hn, Hp.
    now exists n, p.
Qed.

End ValidatorsWrapperFacts.

(** * Properties of the key store of the wallet provider *)

Lemma map_get_has (k v : string) (m : KeyMap) :
  map_get k m = Some v -> map_has k m = true.
Proof.
  induction m as [|[k' v'] m IH]; cbn; [discriminate|].
  destruct (String.eqb k' k); [reflexivity|exact IH].
Qed.

Lemma map_get_in (k v : string) (m : KeyMap) :
  map_get k m = Some v -> In (k, v) m.
Proof.
  induction m as [|[k' v'] m IH]; cbn; [discriminate|].
  destruct (String.eqb_spec k' k) as [->|_].
  - intros H. inversion H. now left.
  - intros H. right. now apply IH.
Qed.

Lemma map_set_absent (k v : string) (m : KeyMap) :
  map_has k m = false -> map_set k v m = m ++ [(k, v)].
Proof.
  induction m as [|[k' v'] m IH]; cbn; [reflexivity|].
  destruct (String.eqb k' k); cbn; [discriminate|].
  intros H. now rewrite IH.
Qed.

Lemma map_has_set (k v : string) (m : KeyMap) :
  map_has k (map_set k v m) = true.
Proof.
  induction m as [|[k' v'] m IH]; cbn.
  - now rewrite String.eqb_refl.
  - destruct (String.eqb k' k) eqn:E; cbn; rewrite E; [reflexivity|exact IH].
Qed.

Lemma map_get_set_other (k k' v : string) (m : KeyMap) :
  k <> k' -> map_get k' (map_set k v m) = map_get k' m.
Proof.
  intros Hne. induction m as [|[k0 v0] m IH]; cbn.
  - now destruct (String.eqb_spec k k').
  - destruct (String.eqb_spec k0 k) as [->|_]; cbn.
    + now destruct (String.eqb_spec k k').
    + now rewrite IH.
Qed.

Lemma startsWith_0x_prefixed (s : string) :
  startsWith "0x" (toLowerCase ("0x" ++ s)) = true /\
  startsWith "0x" (toLowerCase ("0X" ++ s)) = true.
Proof. destruct s; split; reflexivity. Qed.

Lemma strip_0x_prefixed (s : string) :
  getPrivateKeyWithout0xPrefix ("0x" ++ s) = s /\
  getPrivateKeyWithout0xPrefix ("0X" ++ s) = s.
Proof.
  unfold getPrivateKeyWithout0xPrefix.
  destruct (startsWith_0x_prefixed s) as [-> ->]. split; reflexivity.
Qed.

Section PrivateKeysProviderFacts.

Variable privateKeyToAddress : string -> string.

(** The account address under which [addAccount] files a key. *)
Lemma addAccount_unfold (m : KeyMap) (privateKey : string) :
  let key := ("0x" ++ getPrivateKeyWithout0xPrefix privateKey)%string in
  let account := toLowerCase (privateKeyToAddress key) in
  addAccount privateKeyToAddress m privateKey
  = if map_has account m then m else m ++ [(account, key)].
Proof.
  cbv zeta. unfold addAccount, generateAccountAddressFromPrivateKey.
  rewrite (proj1 (startsWith_0x_prefixed _)). cbn [negb].
  destruct (map_has _ m) eqn:E; [reflexivity|]. now apply map_set_absent.
Qed.

(** X19.  [addAccount] takes a key with or without its prefix: for a key
    that does not itself begin with 0x or 0X, adding it bare, with the
    prefix 0x or with the prefix 0X gives the same key store. *)
Theorem addAccount_prefix_insensitive (m : KeyMap) (key : string) :
  startsWith "0x" (toLowerCase key) = false ->
  addAccount privateKeyToAddress m ("0x" ++ key) = addAccount privateKeyToAddress m key /\
  addAccount privateKeyToAddress m ("0X" ++ key) = addAccount privateKeyToAddress m key.
Proof.
  intros H.
  assert (E : getPrivateKeyWithout0xPrefix key = key)
    by (unfold getPrivateKeyWithout0xPrefix; now rewrite H).
  destruct (strip_0x_prefixed key) as [E1 E2].
  unfold addAccount. now rewrite E, E1, E2.
Qed.

(** X20.  [addAccount] never replaces a key: the key that
    [getPrivateKeyFor] returns for an account is the same after any further
    [addAccount], also one whose key belongs to the same account. *)
Theorem addAccount_keeps_keys (m : KeyMap) (privateKey account key : string) :
  getPrivateKeyFor m account = Some key ->
  getPrivateKeyFor (addAccount privateKeyToAddress m privateKey) account = Some key.
Proof.
  unfold getPrivateKeyFor, addAccount. intros H.
  destruct (map_has _ m) eqn:E; [exact H|].
  rewrite map_get_set_other; [exact H|].
  intros Heq. rewrite Heq in E. apply map_get_has in H. congruence.
Qed.

(** X21.  After [addAccount] the store can sign for the address of the
    added key, however that address is capitalised by the caller. *)
Theorem addAccount_can_sign (m : KeyMap) (privateKey from : string) :
  toLowerCase from
  = toLowerCase (privateKeyToAddress ("0x" ++ getPrivateKeyWithout0xPrefix privateKey)) ->
  canSign (addAccount privateKeyToAddress m privateKey) from = true.
Proof.
  intros H. unfold canSign. rewrite H.
  pose proof (addAccount_unfold m privateKey) as E. cbv zeta in E. rewrite E.
  destruct (map_has _ m) eqn:Eh; [exact Eh|].
  unfold map_has. rewrite existsb_app. cbn. rewrite String.eqb_refl.
  now rewrite orb_true_r.
Qed.

Lemma providerKeys_entries (privateKey : string) (more : list string) :
  Forall (fun e => fst e = toLowerCase (privateKeyToAddress (snd e)) /\
                   startsWith "0x" (snd e) = true)
         (providerKeys privateKeyToAddress privateKey more).
Proof.
  unfold providerKeys.
  assert (Hstep : forall m pk,
             Forall (fun e => fst e = toLowerCase (privateKeyToAddress (snd e)) /\
                              startsWith "0x" (snd e) = true) m ->
             Forall (fun e => fst e = toLowerCase (privateKeyToAddress (snd e)) /\
                              startsWith "0x" (snd e) = true)
                    (addAccount privateKeyToAddress m pk)).
  { intros m pk Hm. pose proof (addAccount_unfold m pk) as E. cbv zeta in E.
    rewrite E. destruct (map_has _ m); [exact Hm|].
    apply Forall_app. split; [exact Hm|]. constructor; [|constructor].
    cbn [fst snd]. split; [reflexivity|].
    unfold startsWith. now destruct (getPrivateKeyWithout0xPrefix pk). }
  assert (Hgen : forall m,
             Forall (fun e => fst e = toLowerCase (privateKeyToAddress (snd e)) /\
                              startsWith "0x" (snd e) = true) m ->
             Forall (fun e => fst e = toLowerCase (privateKeyToAddress (snd e)) /\
                              startsWith "0x" (snd e) = true)
                    (fold_left (addAccount privateKeyToAddress) more m)).
  { induction more as [|pk more IH]; intros m Hm; [exact Hm|].
    cbn [fold_left]. apply IH, Hstep, Hm. }
  apply Hgen, Hstep. constructor.
Qed.

(** X22.  In the key store of a provider, built by its constructor and any
    number of [addAccount] calls, the key that [getPrivateKeyFor] returns
    for an account carries the 0x prefix and is a key of that very account:
    its address equals the requested one up to letter case. *)
Theorem getPrivateKeyFor_matches_account (privateKey : string) (more : list string)
        (account key : string) :
  getPrivateKeyFor (providerKeys privateKeyToAddress privateKey more) account = Some key ->
  toLowerCase (privateKeyToAddress key) = toLowerCase account /\
  startsWith "0x" key = true.
Proof.
  unfold getPrivateKeyFor. intros H. apply map_get_in in H.
  pose proof (providerKeys_entries privateKey more) as Hall.
  rewrite Forall_forall in Hall. destruct (Hall _ H) as [H1 H2].
  cbn [fst snd] in *. now split.
Qed.

End PrivateKeysProviderFacts.

(** * The further properties on concrete inputs *)

Lemma account_permanent_witness :
  isAccount registry_1 1 = true /\
  isAccount (run toySigner [ (1, AuthorizeVoteSigner 2 27 2 1); (1, CreateAccount);
                             (1, SetWalletAddress 7) ] registry_1) 1 = true.
Proof.
  split; [reflexivity|].
  exact (account_permanent toySigner _ registry_1 1 eq_refl).
Defined.

Lemma account_never_signer_witness :
  isAccount (run toySigner [ (1, CreateAccount) ] genesis) 1 = true /\
  isAuthorized (run toySigner ([ (1, CreateAccount) ] ++ [ (3, CreateAccount) ]) genesis) 1
  = false /\
  forall st' evs,
    authorizeDelegate toySigner 3 Attesting 1 27 1 3
      (run toySigner ([ (1, CreateAccount) ] ++ [ (3, CreateAccount) ]) genesis)
    <> Ok (tt, st', evs).
Proof.
  split; [reflexivity|].
  destruct (account_never_signer toySigner [ (1, CreateAccount) ] [ (3, CreateAccount) ] 1
                                 eq_refl) as [H1 H2].
  split; [exact H1|]. intros st' evs. exact (H2 3 Attesting 27 1 3 st' evs).
Defined.

Lemma signer_exclusive_witness :
  reachable toySigner registry_1_votes_2 /\
  slot registry_1_votes_2 1 Voting = 2 /\
  2 <> address0 /\
  authorizedBy registry_1_votes_2 2 = 1 /\
  isAccount registry_1_votes_2 1 = true /\
  isAccount registry_1_votes_2 2 = false /\
  forall J R', slot registry_1_votes_2 J R' = 2 -> J = 1 /\ R' = Voting.
Proof.
  assert (Hr : reachable toySigner registry_1_votes_2) by concrete_reachable.
  assert (Hne : 2 <> address0) by discriminate.
  split; [exact Hr|]. split; [reflexivity|]. split; [exact Hne|].
  exact (signer_exclusive toySigner registry_1_votes_2 1 Voting 2 Hr eq_refl Hne).
Defined.

Lemma claim_has_one_slot_witness :
  reachable toySigner registry_1_votes_2 /\
  2 <> address0 /\
  authorizedBy registry_1_votes_2 2 <> address0 /\
  isAccount registry_1_votes_2 (authorizedBy registry_1_votes_2 2) = true /\
  exists R, slot registry_1_votes_2 (authorizedBy registry_1_votes_2 2) R = 2 /\
            forall R', slot registry_1_votes_2 (authorizedBy registry_1_votes_2 2) R' = 2 ->
                       R' = R.
Proof.
  assert (Hr : reachable toySigner registry_1_votes_2) by concrete_reachable.
  assert (Hne : 2 <> address0) by discriminate.
  assert (Hcl : authorizedBy registry_1_votes_2 2 <> address0) by discriminate.
  split; [exact Hr|]. split; [exact Hne|]. split; [exact Hcl|].
  exact (claim_has_one_slot toySigner registry_1_votes_2 2 Hr Hne Hcl).
Defined.

Lemma account_resolves_to_itself_witness :
  reachable toySigner registry_1_votes_2 /\
  isAccount registry_1_votes_2 1 = true /\
  getVoteSignerFromAccount registry_1_votes_2 1 = Ok 2 /\
  identityOf Voting registry_1_votes_2 1 = Ok 1.
Proof.
  assert (Hr : reachable toySigner registry_1_votes_2) by concrete_reachable.
  split; [exact Hr|]. split; [reflexivity|]. split; [reflexivity|].
  exact (account_resolves_to_itself toySigner registry_1_votes_2 Voting 1 Hr eq_refl).
Defined.

Lemma resolvers_round_trip_witness :
  reachable toySigner registry_1_votes_2 /\
  isAccount registry_1_votes_2 1 = true /\
  exists X, delegateOf Voting registry_1_votes_2 1 = Ok X /\
            identityOf Voting registry_1_votes_2 X = Ok 1.
Proof.
  assert (Hr : reachable toySigner registry_1_votes_2) by concrete_reachable.
  split; [exact Hr|]. split; [reflexivity|].
  exact (resolvers_round_trip toySigner registry_1_votes_2 Voting 1 Hr eq_refl).
Defined.

Lemma resolver_sound_witness :
  reachable toySigner registry_1_votes_2 /\
  2 <> address0 /\
  identityOf Voting registry_1_votes_2 2 = Ok 1 /\
  isAccount registry_1_votes_2 1 = true /\
  ((2 = 1 /\ authorizedBy registry_1_votes_2 2 = address0) \/
   (slot registry_1_votes_2 1 Voting = 2 /\ authorizedBy registry_1_votes_2 2 = 1)).
Proof.
  assert (Hr : reachable toySigner registry_1_votes_2) by concrete_reachable.
  assert (Hne : 2 <> address0) by discriminate.
  split; [exact Hr|]. split; [exact Hne|]. split; [reflexivity|].
  exact (resolver_sound toySigner registry_1_votes_2 Voting 2 1 Hr Hne eq_refl).
Defined.

Lemma replaced_signer_unresolved_witness :
  reachable toySigner registry_1_votes_2 /\
  slot registry_1_votes_2 1 Voting = 2 /\
  2 <> address0 /\
  authorizeDelegate toySigner 1 Voting 4 27 4 1 registry_1_votes_2
  = Ok (tt, authorized Voting 1 4 registry_1_votes_2, [VoteSignerAuthorized 1 4]) /\
  forall R', identityOf R' (authorized Voting 1 4 registry_1_votes_2) 2
             = Revert UnknownIdentity.
Proof.
  assert (Hr : reachable toySigner registry_1_votes_2) by concrete_reachable.
  assert (Hne : 2 <> address0) by discriminate.
  assert (Hok : authorizeDelegate toySigner 1 Voting 4 27 4 1 registry_1_votes_2
                = Ok (tt, authorized Voting 1 4 registry_1_votes_2,
                      [VoteSignerAuthorized 1 4])) by reflexivity.
  split; [exact Hr|]. split; [reflexivity|]. split; [exact Hne|].
  split; [exact Hok|].
  exact (replaced_signer_unresolved toySigner _ _ 1 Voting 2 4 27 4 1 _
                                    Hr eq_refl Hne Hok).
Defined.

Lemma authorize_succeeds_iff_witness :
  ((guarded Voting = true -> guard_entered registry_1 = false) /\
   isAccount registry_1 1 = true /\ isAccount registry_1 2 = false /\
   isAuthorized registry_1 2 = false /\ toySigner 1 27 2 1 = 2) /\
  exists st' evs, authorizeDelegate toySigner 1 Voting 2 27 2 1 registry_1
                  = Ok (tt, st', evs).
Proof.
  assert (H : (guarded Voting = true -> guard_entered registry_1 = false) /\
              isAccount registry_1 1 = true /\ isAccount registry_1 2 = false /\
              isAuthorized registry_1 2 = false /\ toySigner 1 27 2 1 = 2)
    by (repeat split).
  split; [exact H|].
  exact (proj2 (authorize_succeeds_iff toySigner registry_1 1 Voting 2 27 2 1) H).
Defined.

Lemma createAccount_once_witness :
  createAccount 1 genesis = Ok (true, registry_1, []) /\
  isAccount registry_1 1 = true /\
  createAccount 1 (run toySigner [ (1, AuthorizeVoteSigner 2 27 2 1);
                                   (2, CreateAccount) ] registry_1)
  = Revert AlreadyIdentity.
Proof.
  assert (Hok : createAccount 1 genesis = Ok (true, registry_1, [])) by reflexivity.
  split; [exact Hok|].
  destruct (createAccount_once toySigner genesis registry_1 1 true []
              [ (1, AuthorizeVoteSigner 2 27 2 1); (2, CreateAccount) ] Hok)
    as (_ & _ & H3 & H4).
  split; [exact H3 | exact H4].
Defined.

Lemma createAccount_frame_witness :
  let st := run toySigner [ (1, SetWalletAddress 9) ] genesis in
  createAccount 1 st = Ok (true, set_account 1 (with_exists true) st, []) /\
  getWalletAddress st 1 = 9 /\
  getWalletAddress (set_account 1 (with_exists true) st) 1 = 9.
Proof.
  cbv zeta.
  assert (Hok : createAccount 1 (run toySigner [ (1, SetWalletAddress 9) ] genesis)
                = Ok (true, set_account 1 (with_exists true)
                              (run toySigner [ (1, SetWalletAddress 9) ] genesis), []))
    by reflexivity.
  split; [exact Hok|]. split; [reflexivity|].
  destruct (createAccount_frame _ _ 1 true [] Hok) as (_ & _ & _ & H4 & _).
  rewrite H4. reflexivity.
Defined.

Lemma claimed_signer_cannot_register_witness :
  reachable toySigner registry_1_votes_2 /\
  isAuthorized registry_1_votes_2 2 = true /\
  createAccount 2 registry_1_votes_2 = Revert AlreadyDelegate /\
  transact toySigner 2 CreateAccount registry_1_votes_2
  = (registry_1_votes_2, Some AlreadyDelegate).
Proof.
  assert (Hr : reachable toySigner registry_1_votes_2) by concrete_reachable.
  split; [exact Hr|]. split; [reflexivity|].
  exact (claimed_signer_cannot_register toySigner registry_1_votes_2 2 Hr eq_refl).
Defined.

Lemma profile_calls_keep_delegation_witness :
  is_profile_call (SetAccount (repeat x02 33) 9) = true /\
  (forall a R,
      identityOf R (exec toySigner registry_1_votes_2 (1, SetAccount (repeat x02 33) 9)) a
      = identityOf R registry_1_votes_2 a) /\
  getWalletAddress (exec toySigner registry_1_votes_2 (1, SetAccount (repeat x02 33) 9)) 1
  = 9.
Proof.
  split; [reflexivity|]. split; [|reflexivity].
  destruct (profile_calls_keep_delegation toySigner registry_1_votes_2 1
              (SetAccount (repeat x02 33) 9) eq_refl) as (_ & _ & _ & H4 & _).
  exact H4.
Defined.

Lemma setAccount_all_or_nothing_witness :
  (List.length (repeat x02 32) < 33)%nat /\
  setAccount 1 (repeat x02 32) 9 registry_1 = Revert KeyTooShort /\
  transact toySigner 1 (SetAccount (repeat x02 32) 9) registry_1
  = (registry_1, Some KeyTooShort) /\
  (33 <= List.length (repeat x02 33))%nat /\
  exists st', setAccount 1 (repeat x02 33) 9 registry_1
              = Ok (tt, st', [AccountDataEncryptionKeySet 1 (repeat x02 33);
                              AccountWalletAddressSet 1 9]) /\
              getDataEncryptionKey st' 1 = repeat x02 33 /\
              getWalletAddress st' 1 = 9 /\
              getMetadataURL st' 1 = getMetadataURL registry_1 1.
Proof.
  assert (Hshort : (List.length (repeat x02 32) < 33)%nat) by (cbn; lia).
  assert (Hlong : (33 <= List.length (repeat x02 33))%nat) by (cbn; lia).
  split; [exact Hshort|].
  destruct (proj2 (setAccount_all_or_nothing toySigner registry_1 1 (repeat x02 32) 9)
                  Hshort) as [H1 H2].
  split; [exact H1|]. split; [exact H2|]. split; [exact Hlong|].
  exact (proj1 (setAccount_all_or_nothing toySigner registry_1 1 (repeat x02 33) 9)
               Hlong).
Defined.

Local Open Scope string_scope.

Lemma reorderMember_succeeds_iff_witness :
  (js_lt (JSInt 2) 0 = false /\
   js_ge (JSInt 2) (Z.of_nat (List.length group_abcd)) = false /\
   In "0xa" group_abcd /\
   js_eq (indexOf "0xa" group_abcd) (JSInt 2) = false) /\
  (exists call,
      reorderMember null_address group_abcd "0x9" "0xa" (JSInt 2) = inl call) /\
  js_ge (JSInt 4) (Z.of_nat (List.length group_abcd)) = true /\
  reorderMember null_address group_abcd "0x9" "0xz" (JSInt 4)
  = inr (InvalidIndex (JSInt 4) 3) /\
  reorderMember null_address [] "0x9" "0xa" (JSInt 0)
  = inr (InvalidIndex (JSInt 0) (-1)).
Proof.
  assert (H : js_lt (JSInt 2) 0 = false /\
              js_ge (JSInt 2) (Z.of_nat (List.length group_abcd)) = false /\
              In "0xa" group_abcd /\
              js_eq (indexOf "0xa" group_abcd) (JSInt 2) = false).
  { repeat split. now left. }
  assert (Hbig : js_ge (JSInt 4) (Z.of_nat (List.length group_abcd)) = true)
    by reflexivity.
  split; [exact H|]. split.
  - exact (proj2 (proj1 (reorderMember_succeeds_iff null_address group_abcd
                           "0x9" "0xa" (JSInt 2))) H).
  - split; [exact Hbig|]. split.
    + exact (proj1 (proj2 (reorderMember_succeeds_iff null_address group_abcd
                             "0x9" "0xz" (JSInt 4))) (or_intror Hbig)).
    + exact (proj2 (proj2 (reorderMember_succeeds_iff null_address group_abcd
                             "0x9" "0xa" (JSInt 0))) 0%Z).
Defined.

Lemma reorderMember_moves_validator_witness :
  reorderMember null_address group_abcd "0x9" "0xa" (JSInt 2)
  = inl (mkReorderCall "0xa" (Some "0xd") (Some "0xc") "0x9") /\
  reorderedMembers group_abcd "0xa" (indexOf "0xa" group_abcd) (JSInt 2)
  = ["0xb"; "0xc"; "0xa"; "0xd"] /\
  Permutation group_abcd
              (reorderedMembers group_abcd "0xa" (indexOf "0xa" group_abcd) (JSInt 2)) /\
  nth_error (reorderedMembers group_abcd "0xa" (indexOf "0xa" group_abcd) (JSInt 2))
            (actualStart (JSInt 2) (List.length group_abcd - 1))
  = Some "0xa".
Proof.
  assert (Hok : reorderMember null_address group_abcd "0x9" "0xa" (JSInt 2)
                = inl (mkReorderCall "0xa" (Some "0xd") (Some "0xc") "0x9"))
    by reflexivity.
  split; [exact Hok|]. split; [reflexivity|].
  destruct (reorderMember_moves_validator null_address group_abcd "0x9" "0xa"
                                          (JSInt 2) _ Hok)
    as (H1 & _ & H3 & _).
  split; [exact H1 | exact H3].
Defined.

Lemma reorderMember_neighbours_witness :
  reorderMember null_address group_abcd "0x9" "0xa" (JSInt 2)
  = inl (mkReorderCall "0xa" (Some "0xd") (Some "0xc") "0x9") /\
  (indexOf "0xa" group_abcd < 2)%Z /\
  Some "0xc" = item group_abcd 2 /\
  Some "0xd" = item group_abcd (2 + 1)%Z.
Proof.
  assert (Hok : reorderMember null_address group_abcd "0x9" "0xa" (JSInt 2)
                = inl (mkReorderCall "0xa" (Some "0xd") (Some "0xc") "0x9"))
    by reflexivity.
  assert (Hlt : (indexOf "0xa" group_abcd < 2)%Z) by reflexivity.
  split; [exact Hok|]. split; [exact Hlt|].
  destruct (reorderMember_neighbours null_address group_abcd "0x9" "0xa" 2 _ Hok)
    as (_ & _ & _ & Hback).
  destruct (Hback Hlt) as [Hp Hn]. split; [exact Hp | exact Hn].
Defined.

Lemma reorderMember_neighbours_defined_witness :
  reorderMember null_address group_abcd "0x9" "0xd" (JSInt 0)
  = inl (mkReorderCall "0xd" (Some "0xa") (Some null_address) "0x9") /\
  exists next prev,
    mkReorderCall "0xd" (Some "0xa") (Some null_address) "0x9"
    = mkReorderCall "0xd" (Some next) (Some prev) "0x9".
Proof.
  assert (Hok : reorderMember null_address group_abcd "0x9" "0xd" (JSInt 0)
                = inl (mkReorderCall "0xd" (Some "0xa") (Some null_address) "0x9"))
    by reflexivity.
  split; [exact Hok|].
  exact (reorderMember_neighbours_defined null_address group_abcd "0x9" "0xd" 0 _ Hok).
Defined.

(** Indices that are not integers pass the range test: for 1.5 the validator
    goes to position 1 and both neighbours are [undefined]; for [NaN] it goes
    to position 0, likewise without neighbours, and on an empty group the
    call fails for the missing member, not for the index. *)
Example reorderMember_fraction_and_NaN :
  reorderMember null_address group_abcd "0x9" "0xa" (JSFraction 1 None None)
  = inl (mkReorderCall "0xa" None None "0x9") /\
  reorderedMembers group_abcd "0xa" 0 (JSFraction 1 None None)
  = ["0xb"; "0xa"; "0xc"; "0xd"] /\
  reorderMember null_address group_abcd "0x9" "0xb" JSNaN
  = inl (mkReorderCall "0xb" None None "0x9") /\
  reorderedMembers group_abcd "0xb" 1 JSNaN = ["0xb"; "0xa"; "0xc"; "0xd"] /\
  reorderMember null_address [] "0x9" "0xa" JSNaN = inr (NotIncluded "0x9" "0xa").
Proof. repeat split. Qed.

Lemma addAccount_prefix_insensitive_witness :
  startsWith "0x" (toLowerCase "c0ffee") = false /\
  addAccount toyAddressOf [] "0xc0ffee" = addAccount toyAddressOf [] "c0ffee" /\
  addAccount toyAddressOf [] "0Xc0ffee" = addAccount toyAddressOf [] "c0ffee" /\
  addAccount toyAddressOf [] "c0ffee" = [("0xadc0ffee", "0xc0ffee")]%string.
Proof.
  assert (H : startsWith "0x" (toLowerCase "c0ffee") = false) by reflexivity.
  split; [exact H|].
  destruct (addAccount_prefix_insensitive toyAddressOf [] "c0ffee" H) as [H1 H2].
  split; [exact H1|]. split; [exact H2|]. reflexivity.
Defined.

Lemma addAccount_keeps_keys_witness :
  getPrivateKeyFor (addAccount toyAddressOf [] "c0ffee") "0xADC0FFEE" = Some "0xc0ffee"%string /\
  getPrivateKeyFor (addAccount toyAddressOf (addAccount toyAddressOf [] "c0ffee") "0xC0FFEE")
                   "0xADC0FFEE" = Some "0xc0ffee"%string.
Proof.
  assert (H : getPrivateKeyFor (addAccount toyAddressOf [] "c0ffee") "0xADC0FFEE"
              = Some "0xc0ffee"%string) by reflexivity.
  split; [exact H|].
  exact (addAccount_keeps_keys toyAddressOf _ "0xC0FFEE" "0xADC0FFEE" "0xc0ffee" H).
Defined.

Lemma addAccount_can_sign_witness :
  toLowerCase "0xadC0FFEE"
  = toLowerCase (toyAddressOf ("0x" ++ getPrivateKeyWithout0xPrefix "c0ffee")) /\
  canSign (addAccount toyAddressOf [] "c0ffee") "0xadC0FFEE" = true.
Proof.
  assert (H : toLowerCase "0xadC0FFEE"
              = toLowerCase (toyAddressOf ("0x" ++ getPrivateKeyWithout0xPrefix "c0ffee")))
    by reflexivity.
  split; [exact H|].
  exact (addAccount_can_sign toyAddressOf [] "c0ffee" "0xadC0FFEE" H).
Defined.

Lemma getPrivateKeyFor_matches_account_witness :
  getPrivateKeyFor (providerKeys toyAddressOf "c0ffee" ["0Xbeef"; "0xC0FFEE"]%string)
                   "0xADBEEF" = Some "0xbeef"%string /\
  toLowerCase (toyAddressOf "0xbeef") = toLowerCase "0xADBEEF" /\
  startsWith "0x" "0xbeef" = true.
Proof.
  assert (H : getPrivateKeyFor
                (providerKeys toyAddressOf "c0ffee" ["0Xbeef"; "0xC0FFEE"]%string)
                "0xADBEEF" = Some "0xbeef"%string) by reflexivity.
  split; [exact H|].
  exact (getPrivateKeyFor_matches_account toyAddressOf "c0ffee"
           ["0Xbeef"; "0xC0FFEE"]%string "0xADBEEF" "0xbeef" H).
Defined.
